(** * The user repository of the event-coordination application

    A shallow embedding of the user data-access module (the functions
    [addUser], [addBasicUser], [updateUser], [multiUpdateUser],
    [deleteUser], [getUser], [hasUser], [getCreatedEvents] and
    [findMatchingUsers]) together with a model of the document store
    and of the object-document mapper those functions call.

    Layout: the pattern engine of the store, the data model, the store
    and its environment, the [async]/[await] monad, the mapper's
    operations, the repository functions, and then the theorems. *)

From Stdlib Require Import Ascii String.
From stdpp Require Import gmap strings list fin_maps.

Local Open Scope string_scope.
Local Open Scope list_scope.

(** ** The pattern engine behind [$regex]

    The store hands the [$regex] operand to a PCRE engine running in
    UTF mode.  The model covers a fragment of the pattern syntax:
    literal ASCII characters, [.], the anchors [^] and [$], grouping,
    alternation, the quantifiers [*], [+], [?] (greedy or lazy) and a
    backslash before a punctuation character.  A pattern using
    anything else (classes, counted repetition, possessive
    quantifiers, special groups, letter or digit escapes, characters
    outside ASCII) is reported as [Unsupported]: the model does not
    say what the engine does with it.  Subjects are any UTF-8 text: a
    subject is matched character by character, not byte by byte. *)
Module Regex.

Inductive re : Type :=
  | Eps
  | Chr (c : ascii)
  | Any
  | Bol
  | Eol
  | Seq (r1 r2 : re)
  | Alt (r1 r2 : re)
  | Star (r : re).

Inductive parsed : Type :=
  | Parsed (r : re)
  | Invalid
  | Unsupported.

(** What the last item of the sequence under construction is, which
    decides what a following quantifier means. *)
Inductive kind : Type := KPlain | KQuant | KLazy | KAnchor.

Record frame : Type := Frame {
  alts : list re;            (* branches already closed by a bar *)
  cur : list (re * kind)     (* items of the open branch, latest first *)
}.

Record pstate : Type := PState {
  outer : list frame;        (* frames of the groups still open *)
  top : frame;
  esc : bool;                (* the previous character was a backslash *)
  opened : bool              (* the previous character opened a group *)
}.

Inductive pres : Type :=
  | Go (st : pstate)
  | Stop (why : parsed).

Definition seq_of (items : list (re * kind)) : re :=
  fold_left (fun acc it => Seq (fst it) acc) items Eps.

Definition close_frame (f : frame) : re :=
  fold_right (fun r acc => Alt r acc) (seq_of (cur f)) (alts f).

Definition push_item (st : pstate) (r : re) (k : kind) : pstate :=
  PState (outer st) (Frame (alts (top st)) ((r, k) :: cur (top st))) false false.

Definition is_alnum (c : ascii) : bool :=
  let n := nat_of_ascii c in
  (Nat.leb 48 n && Nat.leb n 57) || (Nat.leb 65 n && Nat.leb n 90) || (Nat.leb 97 n && Nat.leb n 122).

Definition is_ascii (c : ascii) : bool := Nat.ltb (nat_of_ascii c) 128.

(** [q] builds the quantified item out of the item it applies to. *)
Definition quantify (st : pstate) (q : re -> re) (c : ascii) : pres :=
  match cur (top st) with
  | [] => if opened st && (Ascii.eqb c "?" || Ascii.eqb c "*") then Stop Unsupported else Stop Invalid
  | (r, KPlain) :: rest =>
      Go (PState (outer st) (Frame (alts (top st)) ((q r, KQuant) :: rest)) false false)
  | (r, KQuant) :: rest =>
      if Ascii.eqb c "?"
      then Go (PState (outer st) (Frame (alts (top st)) ((r, KLazy) :: rest)) false false)
      else if Ascii.eqb c "+" then Stop Unsupported else Stop Invalid
  | (_, KLazy) :: _ => Stop Unsupported
  | (_, KAnchor) :: _ => Stop Unsupported
  end.

Definition step (st : pstate) (c : ascii) : pres :=
  if negb (is_ascii c) then Stop Unsupported
  else if esc st then
    if is_alnum c then Stop Unsupported else Go (push_item st (Chr c) KPlain)
  else if Ascii.eqb c "\" then Go (PState (outer st) (top st) true false)
  else if Ascii.eqb c "(" then Go (PState (top st :: outer st) (Frame [] []) false true)
  else if Ascii.eqb c ")" then
    match outer st with
    | [] => Stop Invalid
    | f :: fs => Go (PState fs (Frame (alts f) ((close_frame (top st), KPlain) :: cur f)) false false)
    end
  else if Ascii.eqb c "|" then
    Go (PState (outer st) (Frame (alts (top st) ++ [seq_of (cur (top st))]) []) false false)
  else if Ascii.eqb c "*" then quantify st Star c
  else if Ascii.eqb c "+" then quantify st (fun r => Seq r (Star r)) c
  else if Ascii.eqb c "?" then quantify st (fun r => Alt r Eps) c
  else if Ascii.eqb c "." then Go (push_item st Any KPlain)
  else if Ascii.eqb c "^" then Go (push_item st Bol KAnchor)
  else if Ascii.eqb c "$" then Go (push_item st Eol KAnchor)
  else if Ascii.eqb c "[" || Ascii.eqb c "{" then Stop Unsupported
  else Go (push_item st (Chr c) KPlain).

(** Two errors that show in what follows a character: a class that is
    opened and never closed, and a group cut short right after its
    question mark. *)
Definition cut_short (st : pstate) (c : ascii) (rest : list ascii) : bool :=
  negb (esc st)
  && ((Ascii.eqb c "[" && negb (existsb (Ascii.eqb "]") rest))
      || (Ascii.eqb c "?" && opened st && match rest with [] => true | _ => false end)).

Fixpoint steps (st : pstate) (s : list ascii) : pres :=
  match s with
  | [] => Go st
  | c :: s' =>
      if cut_short st c s' then Stop Invalid
      else match step st c with
           | Go st' => steps st' s'
           | Stop why => Stop why
           end
  end.

Definition parse_chars (pattern : list ascii) : parsed :=
  match steps (PState [] (Frame [] []) false false) pattern with
  | Stop why => why
  | Go st =>
      if esc st then Invalid
      else match outer st with
           | [] => Parsed (close_frame (top st))
           | _ :: _ => Invalid
           end
  end.

Definition parse (pattern : string) : parsed :=
  parse_chars (list_ascii_of_string pattern).

(** *** Subjects *)

(** One character of a subject: the bytes of its UTF-8 encoding. *)
Definition uchar : Type := list ascii.

Definition is_continuation (b : ascii) : bool :=
  let n := nat_of_ascii b in Nat.leb 128 n && Nat.ltb n 192.

(** The characters of a UTF-8 text: every byte opens a character and
    the continuation bytes that follow it belong to it. *)
Fixpoint chars (s : list ascii) : list uchar :=
  match s with
  | [] => []
  | b :: s' =>
      match chars s' with
      | (x :: tok) :: toks =>
          if is_continuation x then (b :: x :: tok) :: toks
          else [b] :: (x :: tok) :: toks
      | toks => [b] :: toks
      end
  end.

(** Option [i]: letters are compared after folding to lower case. *)
Definition lower (c : ascii) : ascii :=
  let n := nat_of_ascii c in
  if Nat.leb 65 n && Nat.leb n 90 then ascii_of_nat (n + 32) else c.

Definition newline : ascii := ascii_of_nat 10.

(** The two characters outside ASCII that fold to an ASCII letter: the
    Kelvin sign (U+212A) to [k] and the long s (U+017F) to [s]. *)
Definition kelvin : uchar := [ascii_of_nat 226; ascii_of_nat 132; ascii_of_nat 170].
Definition long_s : uchar := [ascii_of_nat 197; ascii_of_nat 191].

(** Does the pattern letter [c] match the character [x] when case is
    ignored? *)
Definition letter_eq (c : ascii) (x : uchar) : bool :=
  match x with
  | [b] => Ascii.eqb (lower c) (lower b)
  | _ => (Ascii.eqb (lower c) "k" && bool_decide (x = kelvin))
         || (Ascii.eqb (lower c) "s" && bool_decide (x = long_s))
  end.

Definition is_newline (x : uchar) : bool := bool_decide (x = [newline]).

(** A backtracking matcher in continuation style.  [bol] tells whether
    the position is the start of the subject; the continuation receives
    the position after the match.  [fuel] bounds the iterations of
    [Star]; an iteration that consumes nothing is cut. *)
Fixpoint run (fuel : nat) : re -> bool -> list uchar -> (bool -> list uchar -> bool) -> bool :=
  match fuel with
  | O => fun _ _ _ _ => false
  | S f =>
      fix go (r : re) (bol : bool) (s : list uchar) (k : bool -> list uchar -> bool) : bool :=
        match r with
        | Eps => k bol s
        | Chr c =>
            match s with
            | x :: s' => letter_eq c x && k false s'
            | [] => false
            end
        | Any =>
            match s with
            | x :: s' => negb (is_newline x) && k false s'
            | [] => false
            end
        | Bol => bol && k bol s
        | Eol =>
            match s with
            | [] => k bol s
            | [x] => is_newline x && k bol s
            | _ => false
            end
        | Seq r1 r2 => go r1 bol s (fun b s' => go r2 b s' k)
        | Alt r1 r2 => go r1 bol s k || go r2 bol s k
        | Star r' =>
            k bol s
            || go r' bol s (fun b s' => Nat.ltb (length s') (length s) && run f (Star r') b s' k)
        end
  end.

Fixpoint search_from (fuel : nat) (r : re) (bol : bool) (s : list uchar) : bool :=
  run fuel r bol s (fun _ _ => true)
  || match s with
     | [] => false
     | _ :: s' => search_from fuel r false s'
     end.

(** Unanchored, case-insensitive search of [r] in [subject]. *)
Definition search (r : re) (subject : string) : bool :=
  let s := chars (list_ascii_of_string subject) in
  search_from (S (length s)) r true s.

(** *** Folding case *)

(** The pattern with its letters in lower case. *)
Fixpoint fold_case (r : re) : re :=
  match r with
  | Chr c => Chr (lower c)
  | Seq r1 r2 => Seq (fold_case r1) (fold_case r2)
  | Alt r1 r2 => Alt (fold_case r1) (fold_case r2)
  | Star r' => Star (fold_case r')
  | _ => r
  end.

(** The character with its letters in lower case. *)
Definition fold_uchar (x : uchar) : uchar :=
  match x with
  | [b] => [lower b]
  | _ => if bool_decide (x = kelvin) then ["k"%char]
         else if bool_decide (x = long_s) then ["s"%char] else x
  end.

(** The subject as the engine compares it when case is ignored. *)
Definition fold_subject (subject : string) : list uchar :=
  List.map fold_uchar (chars (list_ascii_of_string subject)).

(** The states and results of the parser with the letters of the
    pattern read so far in lower case. *)
Definition fold_items (items : list (re * kind)) : list (re * kind) :=
  List.map (fun it => (fold_case (fst it), snd it)) items.

Definition fold_frame (f : frame) : frame :=
  Frame (List.map fold_case (alts f)) (fold_items (cur f)).

Definition fold_state (st : pstate) : pstate :=
  PState (List.map fold_frame (outer st)) (fold_frame (top st)) (esc st) (opened st).

Definition fold_parsed (p : parsed) : parsed :=
  match p with
  | Parsed r => Parsed (fold_case r)
  | _ => p
  end.

Definition fold_result (p : pres) : pres :=
  match p with
  | Go st => Go (fold_state st)
  | Stop why => Stop (fold_parsed why)
  end.

End Regex.

(** ** Data model *)

(** Identifiers allocated by the mapper ([ObjectId]). *)
Definition Id : Type := nat.

(** The values a caller may pass where the module takes "a value": the
    null value, a string, an array of event references, or a plain
    object (which no schema type of this application accepts). *)
Inductive Value : Type :=
  | VNull
  | VStr (s : string)
  | VIds (ids : list Id)
  | VObj.

Inductive Error : Type :=
  | TypeError
  | ValidationError
  | DuplicateKey
  | DocumentNotFound
  | NetworkError
  | RegexError.

(** Modelled from the spec: the [Event] schema ([models/event] is not
    among the sources).  An event has exactly one [creator] and a
    [participants] field. *)
Record Event : Type := {
  event_id : Id;
  creator : Id;
  participants : list Id
}.

(** An event as it appears once joined into a user; [None] for
    [view_participants] when the join asked for ["-participants"]. *)
Record EventView : Type := {
  view_id : Id;
  view_creator : Id;
  view_participants : option (list Id)
}.

(** Modelled from the spec: the [User] schema ([models/user] is not
    among the sources).  [firstname], [lastname], [username] and
    [email] are required strings, [username] carries a unique index,
    [participatingIn] is an array of references to events ([None] when
    the stored value is null). *)
Record User : Type := {
  _id : Id;
  firstname : string;
  lastname : string;
  username : string;
  email : string;
  participatingIn : option (list Id)
}.

Definition string_paths : list string := ["firstname"; "lastname"; "username"; "email"].

Definition is_string_path (field : string) : bool :=
  bool_decide (field ∈ string_paths).

(** A document in memory.  [paths] holds the current values of the
    schema paths, [castErrors] the paths whose last assignment could
    not be cast, [joined] the populated [participatingIn], and [own]
    the properties written on the object that the schema does not
    know. *)
Record Doc : Type := {
  doc_id : Id;
  isNew : bool;
  paths : gmap string Value;
  castErrors : gset string;
  joined : option (list EventView);
  own : gmap string Value
}.

(** ** The store and its environment *)

(** What happens around one round trip to the store: nothing, the
    store cannot be reached, or another client deletes a user just
    before the request is served. *)
Inductive EnvEvent : Type :=
  | Quiet
  | Outage
  | RemoteDelete (name : string).

(** The calls made on the mapper, in order. *)
Inductive StoreOp : Type :=
  | OpFindOne
  | OpFind
  | OpSave
  | OpDeleteOne
  | OpEventFind.

Record World : Type := {
  users : list User;
  events : list Event;
  next_id : Id;
  env : list EnvEvent;              (* one entry per round trip; none left means quiet *)
  log : list StoreOp;
  engine_ext : string -> option (string -> bool);
      (* the pattern engine on the patterns outside the modelled fragment *)
  scan : list User -> list User
      (* the order in which a query without a sort visits the collection *)
}.

Definition with_users (us : list User) (w : World) : World :=
  {| users := us; events := events w; next_id := next_id w; env := env w;
     log := log w; engine_ext := engine_ext w; scan := scan w |}.

Definition with_env (es : list EnvEvent) (w : World) : World :=
  {| users := users w; events := events w; next_id := next_id w; env := es;
     log := log w; engine_ext := engine_ext w; scan := scan w |}.

Definition with_next_id (n : Id) (w : World) : World :=
  {| users := users w; events := events w; next_id := n; env := env w;
     log := log w; engine_ext := engine_ext w; scan := scan w |}.

Definition record_op (op : StoreOp) (w : World) : World :=
  {| users := users w; events := events w; next_id := next_id w; env := env w;
     log := log w ++ [op]; engine_ext := engine_ext w; scan := scan w |}.

(** ** Promises, [async] and [await] *)

(** A settled promise. *)
Inductive Outcome (A : Type) : Type :=
  | Fulfilled (a : A)
  | Rejected (e : Error).
Arguments Fulfilled {A} a.
Arguments Rejected {A} e.

(** How a block of statements completes. *)
Inductive Completion (A : Type) : Type :=
  | Normal (a : A)
  | Thrown (e : Error).
Arguments Normal {A} a.
Arguments Thrown {A} e.

(** What a [return] statement hands to the enclosing [async] function:
    a plain value, or a promise that was not awaited. *)
Inductive Returned (A : Type) : Type :=
  | Plain (a : A)
  | Promise (p : Outcome A).
Arguments Plain {A} a.
Arguments Promise {A} p.

Definition JS (A : Type) : Type := World -> Completion A * World.

Definition ret {A} (a : A) : JS A := fun w => (Normal a, w).

Definition bind {A B} (m : JS A) (k : A -> JS B) : JS B :=
  fun w =>
    match m w with
    | (Normal a, w') => k a w'
    | (Thrown e, w') => (Thrown e, w')
    end.

Definition throw {A} (e : Error) : JS A := fun w => (Thrown e, w).

Definition try_catch {A} (body : JS A) (handler : Error -> JS A) : JS A :=
  fun w =>
    match body w with
    | (Normal a, w') => (Normal a, w')
    | (Thrown e, w') => handler e w'
    end.

Declare Scope js_scope.
Delimit Scope js_scope with js.
Notation "x <- m ;; k" := (bind m (fun x => k))
  (at level 100, m at next level, right associativity) : js_scope.

(** Calling something that returns a promise: the call itself does not
    throw, the promise carries the result. *)
Definition call {A} (f : World -> Outcome A * World) : JS (Outcome A) :=
  fun w => let '(p, w') := f w in (Normal p, w').

(** [await p] gives the value of a fulfilled promise and throws the
    reason of a rejected one at the point of the [await]. *)
Definition await {A} (p : Outcome A) : JS A :=
  match p with
  | Fulfilled a => ret a
  | Rejected e => throw e
  end.

(** The promise of an [async] function: fulfilled with a plain return
    value, following a returned promise, rejected by an escaping
    exception. *)
Definition async {A} (body : JS (Returned A)) : World -> Outcome A * World :=
  fun w =>
    match body w with
    | (Normal (Plain a), w') => (Fulfilled a, w')
    | (Normal (Promise p), w') => (p, w')
    | (Thrown e, w') => (Rejected e, w')
    end.

Definition outcome_map {A B} (f : A -> B) (p : Outcome A) : Outcome B :=
  match p with
  | Fulfilled a => Fulfilled (f a)
  | Rejected e => Rejected e
  end.

(** ** The mapper *)

Definition find_user (name : string) (us : list User) : option User :=
  List.find (fun u => String.eqb (username u) name) us.

Fixpoint delete_one (name : string) (us : list User) : list User :=
  match us with
  | [] => []
  | u :: rest => if String.eqb (username u) name then rest else u :: delete_one name rest
  end.

(** One round trip to the store, under the next event of the
    environment. *)
Definition round_trip {A} (q : World -> Outcome A * World) : World -> Outcome A * World :=
  fun w =>
    match env w with
    | [] => q w
    | Quiet :: es => q (with_env es w)
    | Outage :: es => (Rejected NetworkError, with_env es w)
    | RemoteDelete name :: es => q (with_env es (with_users (delete_one name (users w)) w))
    end.

Definition view (strip : bool) (e : Event) : EventView :=
  {| view_id := event_id e; view_creator := creator e;
     view_participants := if strip then None else Some (participants e) |}.

(** [populate]: every reference is replaced by the event it names;
    references to events that no longer exist are dropped. *)
Definition populate (evs : list Event) (strip : bool) (ids : list Id) : list EventView :=
  omap (fun i => view strip <$> List.find (fun e => Nat.eqb (event_id e) i) evs) ids.

Definition refs_value (r : option (list Id)) : Value :=
  match r with
  | Some ids => VIds ids
  | None => VNull
  end.

(** The document built from a stored record, with [participatingIn]
    populated. *)
Definition hydrate (evs : list Event) (strip : bool) (u : User) : Doc :=
  {| doc_id := _id u;
     isNew := false;
     paths := <["firstname" := VStr (firstname u)]>
              (<["lastname" := VStr (lastname u)]>
              (<["username" := VStr (username u)]>
              (<["email" := VStr (email u)]>
              (<["participatingIn" := refs_value (participatingIn u)]> ∅))));
     castErrors := ∅;
     joined := populate evs strip <$> participatingIn u;
     own := ∅ |}.

Definition set_path (d : Doc) (field : string) (v : Value) : Doc :=
  {| doc_id := doc_id d; isNew := isNew d;
     paths := <[field := v]> (paths d);
     castErrors := castErrors d ∖ {[field]};
     joined := if String.eqb field "participatingIn" then None else joined d;
     own := own d |}.

Definition cast_failed (d : Doc) (field : string) : Doc :=
  {| doc_id := doc_id d; isNew := isNew d;
     paths := paths d;
     castErrors := castErrors d ∪ {[field]};
     joined := joined d;
     own := own d |}.

(** [d[field] = value].  On a schema path the value goes through the
    path's cast: a string path takes a string or null, the reference
    array takes an array of references or null, and anything else is
    kept as a cast error that makes the next [save] fail.  Any other
    name becomes a property of the object, unknown to the schema.
    Of the members of the mapper's documents the model knows [save]
    alone: what the mapper does once [_id], [__v], [isNew] or another
    member of its own is overwritten is outside the model, and so are
    the casts to a reference of a string of 24 hexadecimal digits and
    of an object. *)
Definition assign (d : Doc) (field : string) (v : Value) : Doc :=
  if is_string_path field then
    match v with
    | VStr _ | VNull => set_path d field v
    | _ => cast_failed d field
    end
  else if String.eqb field "participatingIn" then
    match v with
    | VIds _ | VNull => set_path d field v
    | _ => cast_failed d field
    end
  else
    {| doc_id := doc_id d; isNew := isNew d; paths := paths d;
       castErrors := castErrors d; joined := joined d;
       own := <[field := v]> (own d) |}.

(** [new User(obj)]: a fresh identifier, the default empty reference
    array, then the schema paths present in [obj]; other keys are
    dropped (the schema is strict). *)
Definition User_new (obj : gmap string Value) : JS Doc :=
  fun w =>
    let blank :=
      {| doc_id := next_id w; isNew := true;
         paths := {["participatingIn" := VIds []]};
         castErrors := ∅; joined := None; own := ∅ |} in
    let fill d field :=
      match obj !! field with
      | Some v => assign d field v
      | None => d
      end in
    (Normal (fold_left fill (string_paths ++ ["participatingIn"]) blank),
     with_next_id (S (next_id w)) w).

Definition required_string (d : Doc) (field : string) : option string :=
  match paths d !! field with
  | Some (VStr s) => if String.eqb s "" then None else Some s
  | _ => None
  end.

Definition refs_of (d : Doc) : option (option (list Id)) :=
  match paths d !! "participatingIn" with
  | Some (VIds ids) => Some (Some ids)
  | Some VNull => Some None
  | _ => None
  end.

(** Validation before a save: no pending cast error and every required
    path holds a non-empty string.  The result is the record to
    write. *)
Definition validate (d : Doc) : option User :=
  if bool_decide (castErrors d = ∅) then
    f ← required_string d "firstname";
    l ← required_string d "lastname";
    u ← required_string d "username";
    e ← required_string d "email";
    r ← refs_of d;
    Some {| _id := doc_id d; firstname := f; lastname := l; username := u;
            email := e; participatingIn := r |}
  else None.

Definition saved (d : Doc) : Doc :=
  {| doc_id := doc_id d; isNew := false; paths := paths d;
     castErrors := castErrors d; joined := joined d; own := own d |}.

Definition insert_user (d : Doc) (u : User) : World -> Outcome Doc * World :=
  fun w =>
    if existsb (fun x => Nat.eqb (_id x) (_id u) || String.eqb (username x) (username u)) (users w)
    then (Rejected DuplicateKey, w)
    else (Fulfilled (saved d), with_users (users w ++ [u]) w).

Definition replace_user (u : User) (us : list User) : list User :=
  List.map (fun x => if Nat.eqb (_id x) (_id u) then u else x) us.

Definition update_user (d : Doc) (u : User) : World -> Outcome Doc * World :=
  fun w =>
    if negb (existsb (fun x => Nat.eqb (_id x) (_id u)) (users w))
    then (Rejected DocumentNotFound, w)
    else if existsb (fun x => negb (Nat.eqb (_id x) (_id u))
                              && String.eqb (username x) (username u)) (users w)
    then (Rejected DuplicateKey, w)
    else (Fulfilled (saved d), with_users (replace_user u (users w)) w).

(** [d.save()] as the mapper implements it: validate in memory, then
    one round trip that inserts a new document or rewrites the stored
    one.  The promise is fulfilled with the document itself. *)
Definition save (d : Doc) : World -> Outcome Doc * World :=
  fun w =>
    let w := record_op OpSave w in
    match validate d with
    | None => (Rejected ValidationError, w)
    | Some u => round_trip (if isNew d then insert_user d u else update_user d u) w
    end.

(** The events a stored record names. *)
Definition referenced (u : User) : list Id := default [] (participatingIn u).

(** The query behind [populate]: once the records are there, the
    events they name are fetched in a round trip of its own, which
    can fail on its own.  Nothing is fetched when no event is named.
    The DAO makes no call for it, so the log does not show it. *)
Definition populate_query {A} (ids : list Id) (k : list Event -> A) : World -> Outcome A * World :=
  fun w =>
    match ids with
    | [] => (Fulfilled (k (events w)), w)
    | _ :: _ => round_trip (fun w => (Fulfilled (k (events w)), w)) w
    end.

(** [User.findOne({username}).populate("participatingIn", ...)] followed
    by what the chain makes of the populated record: the lookup is
    one round trip, the join the next. *)
Definition findOne_joined {A} (name : string) (k : list Event -> User -> A) :
    World -> Outcome (option A) * World :=
  fun w =>
    match round_trip (fun w => (Fulfilled (find_user name (users w)), w))
                     (record_op OpFindOne w) with
    | (Fulfilled (Some u), w1) => populate_query (referenced u) (fun evs => Some (k evs u)) w1
    | (Fulfilled None, w1) => (Fulfilled None, w1)
    | (Rejected e, w1) => (Rejected e, w1)
    end.

(** [User.findOne({username}).populate("participatingIn", ...).exec()] *)
Definition findOne_populate (strip : bool) (name : string) : World -> Outcome (option Doc) * World :=
  findOne_joined name (fun evs u => hydrate evs strip u).

(** [User.deleteOne({username}).exec()] *)
Definition deleteOne (name : string) : World -> Outcome unit * World :=
  fun w =>
    round_trip (fun w => (Fulfilled tt, with_users (delete_one name (users w)) w))
               (record_op OpDeleteOne w).

(** [Event.find({creator}).exec()] *)
Definition Event_find (c : Id) : World -> Outcome (list Event) * World :=
  fun w =>
    round_trip (fun w => (Fulfilled (List.filter (fun e => Nat.eqb (creator e) c) (events w)), w))
               (record_op OpEventFind w).

(** The predicate the store derives from [{$regex: pattern, $options: "i"}];
    [None] when the engine refuses the pattern. *)
Definition compile_pattern (w : World) (pattern : string) : option (string -> bool) :=
  match Regex.parse pattern with
  | Regex.Parsed r => Some (Regex.search r)
  | Regex.Invalid => None
  | Regex.Unsupported => engine_ext w pattern
  end.

(** [User.find({username: {$regex, $options: "i"}}).limit(n)
      .populate("participatingIn", ["-participants"]).exec()].  The
    query names no sort: the matching records come in the order in
    which the store scans the collection, and the limit keeps the
    first [limit] of them.  The join is a second query. *)
Definition find_regex (pattern : string) (limit : nat) : World -> Outcome (list Doc) * World :=
  fun w =>
    match round_trip (fun w =>
            match compile_pattern w pattern with
            | None => (Rejected RegexError, w)
            | Some m =>
                (Fulfilled (take limit (List.filter (fun u => m (username u))
                                          (scan w (users w)))), w)
            end) (record_op OpFind w) with
    | (Fulfilled found, w1) =>
        populate_query (concat (referenced <$> found))
                       (fun evs => hydrate evs true <$> found) w1
    | (Rejected e, w1) => (Rejected e, w1)
    end.

(** Property access on a value that may be null. *)
Definition set_property (o : option Doc) (field : string) (v : Value) : JS (option Doc) :=
  match o with
  | None => throw TypeError
  | Some d => ret (Some (assign d field v))
  end.

Definition get_id (o : option Doc) : JS Id :=
  match o with
  | None => throw TypeError
  | Some d => ret (doc_id d)
  end.

(** [o.save()]: the method is looked up on the object first, so a
    property called [save] written on it hides the mapper's method (no
    value of the model is callable). *)
Definition invoke_save (o : option Doc) : JS (Outcome Doc) :=
  match o with
  | None => throw TypeError
  | Some d =>
      match own d !! "save" with
      | Some _ => throw TypeError
      | None => call (save d)
      end
  end.

(** ** The repository functions *)

Local Open Scope js_scope.

(** [return newUser.save()] hands the promise of [save] to the
    function's own promise; nothing is awaited inside the [try].  (A
    document fresh from the constructor has no property of its own, so
    [save] is the mapper's method.) *)
Definition addUser (userObj : gmap string Value) : World -> Outcome (option Doc) * World :=
  async (
    newUser <- User_new userObj ;;
    try_catch
      (p <- call (save newUser) ;;
       ret (Promise (outcome_map Some p)))
      (fun _ => ret (Plain None))).

Definition addBasicUser (firstname lastname username email : Value)
  : World -> Outcome (option Doc) * World :=
  async (
    newUser <- User_new (<["firstname" := firstname]> (<["lastname" := lastname]>
                        (<["username" := username]> (<["email" := email]> ∅)))) ;;
    try_catch
      (p <- call (save newUser) ;;
       d <- await p ;;
       ret (Plain (Some d)))
      (fun _ => ret (Plain None))).

(** The handler also writes the error to the console, which changes
    nothing in the answer or in the store. *)
Definition updateUser (username field : string) (value : Value)
  : World -> Outcome (option Doc) * World :=
  async (
    try_catch
      (p <- call (findOne_populate false username) ;;
       userToUpdate <- await p ;;
       userToUpdate <- set_property userToUpdate field value ;;
       q <- invoke_save userToUpdate ;;
       d <- await q ;;
       ret (Plain (Some d)))
      (fun _ => ret (Plain None))).

Fixpoint for_of (updates : list (string * Value)) (userToUpdate : option Doc) : JS (option Doc) :=
  match updates with
  | [] => ret userToUpdate
  | element :: rest =>
      userToUpdate <- set_property userToUpdate (fst element) (snd element) ;;
      for_of rest userToUpdate
  end.

Definition multiUpdateUser (username : string) (updates : list (string * Value))
  : World -> Outcome (option Doc) * World :=
  async (
    try_catch
      (p <- call (findOne_populate false username) ;;
       userToUpdate <- await p ;;
       userToUpdate <- for_of updates userToUpdate ;;
       q <- invoke_save userToUpdate ;;
       d <- await q ;;
       ret (Plain (Some d)))
      (fun _ => ret (Plain None))).

Definition deleteUser (username : string) : World -> Outcome bool * World :=
  async (
    try_catch
      (p <- call (deleteOne username) ;;
       _ <- await p ;;
       ret (Plain true))
      (fun _ => ret (Plain false))).

Definition getUser (username : string) : World -> Outcome (option Doc) * World :=
  async (
    try_catch
      (p <- call (findOne_populate true username) ;;
       desiredUser <- await p ;;
       ret (Plain desiredUser))
      (fun _ => ret (Plain None))).

(** [x == null] *)
Definition is_null {A} (x : option A) : bool :=
  match x with
  | None => true
  | Some _ => false
  end.

Definition hasUser (username : string) : World -> Outcome bool * World :=
  async (
    p <- call (getUser username) ;;
    r <- await p ;;
    ret (Plain (negb (is_null r)))).

Definition getCreatedEvents (username : string) : World -> Outcome (option (list Event)) * World :=
  async (
    try_catch
      (p <- call (getUser username) ;;
       user <- await p ;;
       id <- get_id user ;;
       q <- call (Event_find id) ;;
       found <- await q ;;
       ret (Plain (Some found)))
      (fun _ => ret (Plain None))).

Definition findMatchingUsers (searchString : string) : World -> Outcome (option (list Doc)) * World :=
  async (
    try_catch
      (p <- call (find_regex searchString 10) ;;
       desiredUsers <- await p ;;
       ret (Plain (Some desiredUsers)))
      (fun _ => ret (Plain None))).

(** ** The remaining lookups *)

(** The document built from a stored record when nothing is joined. *)
Definition hydrate_raw (u : User) : Doc :=
  {| doc_id := _id u;
     isNew := false;
     paths := <["firstname" := VStr (firstname u)]>
              (<["lastname" := VStr (lastname u)]>
              (<["username" := VStr (username u)]>
              (<["email" := VStr (email u)]>
              (<["participatingIn" := refs_value (participatingIn u)]> ∅))));
     castErrors := ∅;
     joined := None;
     own := ∅ |}.

(** [User.findOne({username}).exec()], with no [populate]. *)
Definition findOne (name : string) : World -> Outcome (option Doc) * World :=
  fun w =>
    round_trip (fun w => (Fulfilled (hydrate_raw <$> find_user name (users w)), w))
               (record_op OpFindOne w).

(** What [lean()] gives instead of a document: a plain object with
    the identifier, the schema fields and the joined events, and none
    of the mapper's tracking. *)
Record PlainUser : Type := {
  plain_id : Id;
  plain_fields : gmap string Value;
  plain_joined : option (list EventView)
}.

Definition lean (d : Doc) : PlainUser :=
  {| plain_id := doc_id d; plain_fields := paths d; plain_joined := joined d |}.

(** [User.findOne({username}).populate("participatingIn", ["-participants"])
      .lean().exec()] *)
Definition findOne_populate_lean (name : string) : World -> Outcome (option PlainUser) * World :=
  findOne_joined name (fun evs u => lean (hydrate evs true u)).

(** [select(field)]: the document comes back with its identifier and
    that path only. *)
Definition select_path (field : string) (d : Doc) : Doc :=
  {| doc_id := doc_id d; isNew := isNew d;
     paths := match paths d !! field with
              | Some v => {[field := v]}
              | None => ∅
              end;
     castErrors := castErrors d; joined := joined d; own := own d |}.

(** [User.findOne({username}).populate("participatingIn", ["-participants"])
      .select("participatingIn").exec()] *)
Definition findOne_populate_select (name : string) : World -> Outcome (option Doc) * World :=
  findOne_joined name (fun evs u => select_path "participatingIn" (hydrate evs true u)).

(** [o.participatingIn] on a value that may be null.  On a document
    whose path was populated the property reads as the joined events,
    and as [null] when the stored value is null. *)
Definition get_participatingIn (o : option Doc) : JS (option (list EventView)) :=
  match o with
  | None => throw TypeError
  | Some d => ret (joined d)
  end.

Definition getRawUser (username : string) : World -> Outcome (option Doc) * World :=
  async (
    try_catch
      (p <- call (findOne username) ;;
       desiredUser <- await p ;;
       ret (Plain desiredUser))
      (fun _ => ret (Plain None))).

Definition getUserObj (username : string) : World -> Outcome (option PlainUser) * World :=
  async (
    try_catch
      (p <- call (findOne_populate_lean username) ;;
       desiredUser <- await p ;;
       ret (Plain desiredUser))
      (fun _ => ret (Plain None))).

Definition getParticipatingIn (username : string)
  : World -> Outcome (option (list EventView)) * World :=
  async (
    try_catch
      (p <- call (findOne_populate_select username) ;;
       desiredEvents <- await p ;;
       joinedEvents <- get_participatingIn desiredEvents ;;
       ret (Plain joinedEvents))
      (fun _ => ret (Plain None))).

Local Close Scope js_scope.

(** ** Well-formed stores *)

Definition valid_user (u : User) : bool :=
  negb (String.eqb (firstname u) "") && negb (String.eqb (lastname u) "")
  && negb (String.eqb (username u) "") && negb (String.eqb (email u) "").

(** The state every sequence of mapper operations maintains: the
    unique index on [username], distinct identifiers below the next
    one to be allocated, and records that passed validation. *)
Record wf (w : World) : Prop := {
  wf_names : NoDup (username <$> users w);
  wf_ids : NoDup (_id <$> users w);
  wf_fresh : Forall (fun u => _id u < next_id w) (users w);
  wf_valid : Forall (fun u => valid_user u = true) (users w)
}.

(** A scan visits every record of the collection once, in an order
    of the store's choosing. *)
Definition fair_scan (w : World) : Prop :=
  forall us, scan w us ≡ₚ us.

(** ** A sample store

    Seven users and two events; [alice] created one event, [bob]
    none. *)
Definition sample_user (i : Id) (name : string) : User :=
  {| _id := i; firstname := "First"; lastname := "Last"; username := name;
     email := name ++ "@example.org"; participatingIn := Some [] |}.

Definition sample : World :=
  {| users := [sample_user 0 "bob"; sample_user 1 "alice"; sample_user 2 "bobby";
               sample_user 3 "Bob123"; sample_user 4 "abc"; sample_user 5 "axc";
               sample_user 6 "ac"];
     events := [ {| event_id := 100; creator := 1; participants := [0; 1] |};
                 {| event_id := 101; creator := 4; participants := [] |} ];
     next_id := 200;
     env := [];
     log := [];
     engine_ext := fun _ => None;
     scan := fun us => us |}.

(** ** Vocabulary of the statements *)

(** The events of [evs] that [u] created. *)
Definition created_by (u : User) (evs : list Event) : list Event :=
  List.filter (fun e => Nat.eqb (creator e) (_id u)) evs.

(** A user object whose username is taken in [sample], and one whose
    username is free. *)
Definition alice_again : gmap string Value :=
  <["firstname" := VStr "Alice"]> (<["lastname" := VStr "Liddell"]>
  (<["username" := VStr "alice"]> (<["email" := VStr "alice@example.com"]> ∅))).

Definition carol : gmap string Value :=
  <["firstname" := VStr "Carol"]> (<["lastname" := VStr "Jones"]>
  (<["username" := VStr "carol"]> (<["email" := VStr "carol@example.com"]> ∅))).

(** The record [u] with the string field [field] set to [s]. *)
Definition with_string (u : User) (field s : string) : User :=
  {| _id := _id u;
     firstname := if String.eqb field "firstname" then s else firstname u;
     lastname := if String.eqb field "lastname" then s else lastname u;
     username := if String.eqb field "username" then s else username u;
     email := if String.eqb field "email" then s else email u;
     participatingIn := participatingIn u |}.

(** The assignments of the loop of [multiUpdateUser], in order. *)
Definition assign_all (updates : list (string * Value)) (d : Doc) : Doc :=
  fold_left (fun d element => assign d (fst element) (snd element)) updates d.

(** What [await] inside a [try] whose handler returns [null] makes of a
    promise. *)
Definition null_on_rejection {A} (p : Outcome A) : Outcome (option A) :=
  match p with
  | Fulfilled a => Fulfilled (Some a)
  | Rejected _ => Fulfilled None
  end.

(** The pattern that ["a.c"] denotes. *)
Definition a_dot_c : Regex.re :=
  Regex.Seq (Regex.Chr "a") (Regex.Seq Regex.Any (Regex.Seq (Regex.Chr "c") Regex.Eps)).

(** The usernames of the records in an answer of [findMatchingUsers]. *)
Definition usernames_of (r : Outcome (option (list Doc))) : option (list (option Value)) :=
  match r with
  | Fulfilled (Some l) => Some ((fun d => paths d !! "username") <$> l)
  | _ => None
  end.

(** A computation keeps the store well formed. *)
Definition keeps {R : Type} (m : World -> R * World) : Prop :=
  forall w, wf w -> wf (snd (m w)).

(** An update that gives a non-empty string to one of the string
    fields other than the lookup key. *)
Definition acceptable (element : string * Value) : bool :=
  bool_decide (fst element ∈ ["firstname"; "lastname"; "email"])
  && match snd element with
     | VStr s => negb (String.eqb s "")
     | _ => false
     end.

(** The promise of a function is fulfilled in every state of the
    store and under every behaviour of the environment. *)
Definition settles {A : Type} (f : World -> Outcome A * World) : Prop :=
  forall w, exists r, fst (f w) = Fulfilled r.

(** A block that, when it completes normally, returns a plain value
    and never a promise left unawaited. *)
Definition returns_plain {A : Type} (m : JS (Returned A)) : Prop :=
  forall w, match fst (m w) with
            | Normal (Promise _) => False
            | _ => True
            end.

(** A function never writes to the [events] collection. *)
Definition spares_events {R : Type} (f : World -> R * World) : Prop :=
  forall w, events (snd (f w)) = events w.

(** The user object holding the four required fields. *)
Definition basic_object (firstname lastname username email : Value) : gmap string Value :=
  <["firstname" := firstname]> (<["lastname" := lastname]>
  (<["username" := username]> (<["email" := email]> ∅))).



(** A store where [alice] takes part in event 100 and still refers to
    an event 999 that no longer exists. *)
Definition attending : World :=
  with_users
    [ sample_user 0 "bob";
      {| _id := 1; firstname := "First"; lastname := "Last"; username := "alice";
         email := "alice@example.org"; participatingIn := Some [100; 999] |} ]
    sample.

(** On a reachable store a function changes neither collection and
    allocates no identifier. *)
Definition reads_only {R : Type} (f : World -> R * World) : Prop :=
  forall w, env w = [] ->
    users (snd (f w)) = users w /\ events (snd (f w)) = events w
    /\ next_id (snd (f w)) = next_id w.

(** Unfolds the repository functions and the monad down to the
    operations on the store. *)
Ltac js_unfold :=
  cbv [addUser addBasicUser updateUser multiUpdateUser deleteUser getUser hasUser
       getCreatedEvents findMatchingUsers
       async try_catch bind call await ret throw round_trip
       findOne_populate findOne_populate_lean findOne_populate_select findOne_joined
       populate_query deleteOne Event_find find_regex
       set_property get_id invoke_save];
  simpl.

(** * Theorems *)

(** ** Lookups and deletions in the collection *)

Lemma find_user_Some name us u :
  find_user name us = Some u -> u ∈ us /\ username u = name.
Proof.
  unfold find_user. intros H. apply find_some in H as [Hin Heq].
  split; [by apply list_elem_of_In | by apply String.eqb_eq].
Qed.

Lemma find_user_None name us :
  find_user name us = None <-> name ∉ (username <$> us).
Proof.
  unfold find_user. induction us as [|x us IH]; simpl.
  - split; [intros _; apply not_elem_of_nil | done].
  - rewrite not_elem_of_cons.
    destruct (String.eqb_spec (username x) name) as [->|Hne].
    + split; [done | intros [? _]; done].
    + rewrite IH. split; [intros H; split; [intros E; by apply Hne | done] | by intros [_ H]].
Qed.

Lemma delete_one_absent name us :
  find_user name us = None -> delete_one name us = us.
Proof.
  unfold find_user. induction us as [|x us IH]; simpl; [done|].
  destruct (String.eqb (username x) name); [done|].
  intros H. by rewrite IH.
Qed.

Lemma find_user_delete_one name us :
  NoDup (username <$> us) -> find_user name (delete_one name us) = None.
Proof.
  induction us as [|x us IH]; simpl; [done|].
  rewrite NoDup_cons. intros [Hx Hnd].
  destruct (String.eqb_spec (username x) name) as [<-|Hne].
  - by apply find_user_None.
  - unfold find_user in *. simpl.
    destruct (String.eqb_spec (username x) name); [done | by apply IH].
Qed.

Lemma find_user_delete_other name other us :
  name <> other -> find_user name (delete_one other us) = find_user name us.
Proof.
  intros Hne. unfold find_user. induction us as [|x us IH]; simpl; [done|].
  destruct (String.eqb_spec (username x) other) as [Ho|Ho]; simpl.
  - destruct (String.eqb_spec (username x) name); [congruence | done].
  - destruct (String.eqb (username x) name); [done | apply IH].
Qed.

(** ** The mapper on a quiet store *)

Lemma round_trip_quiet {A} (q : World -> Outcome A * World) w :
  env w = [] -> round_trip q w = q w.
Proof. intros Henv. unfold round_trip. by rewrite Henv. Qed.

Lemma populate_query_quiet {A} ids (k : list Event -> A) w :
  env w = [] -> populate_query ids k w = (Fulfilled (k (events w)), w).
Proof.
  intros Henv. unfold populate_query. destruct ids; [done|].
  by rewrite round_trip_quiet.
Qed.

Lemma findOne_joined_quiet {A} name (k : list Event -> User -> A) w :
  env w = [] ->
  findOne_joined name k w
  = (Fulfilled (k (events w) <$> find_user name (users w)), record_op OpFindOne w).
Proof.
  intros Henv. unfold findOne_joined. rewrite round_trip_quiet by done. simpl.
  destruct (find_user name (users w)) as [u|]; [|done].
  by rewrite populate_query_quiet.
Qed.

Lemma findOne_populate_quiet strip name w :
  env w = [] ->
  findOne_populate strip name w
  = (Fulfilled (hydrate (events w) strip <$> find_user name (users w)), record_op OpFindOne w).
Proof. apply findOne_joined_quiet. Qed.

(** In any environment a round trip either fails or is served on a
    store with the same events. *)
Lemma round_trip_cases {A} (q : World -> Outcome A * World) w :
  (exists es, round_trip q w = (Rejected NetworkError, with_env es w))
  \/ (exists w0, round_trip q w = q w0 /\ events w0 = events w /\ log w0 = log w
                 /\ next_id w0 = next_id w).
Proof.
  unfold round_trip. destruct (env w) as [|[| |other] es]; eauto 6.
Qed.

(** The join either fails or shows the events of the store. *)
Lemma populate_query_cases {A} ids (k : list Event -> A) w :
  (exists e, fst (populate_query ids k w) = Rejected e)
  \/ fst (populate_query ids k w) = Fulfilled (k (events w)).
Proof.
  unfold populate_query. destruct ids; [by right|].
  destruct (round_trip_cases (fun w => (Fulfilled (k (events w)), w)) w)
    as [[es ->]|(w0 & -> & Hev & _)]; simpl; [eauto|].
  right. by rewrite Hev.
Qed.

(** The lookup either fails, finds nothing, or finds a record that
    the join then shows. *)
Lemma findOne_joined_cases {A} name (k : list Event -> User -> A) w :
  (exists e, fst (findOne_joined name k w) = Rejected e)
  \/ fst (findOne_joined name k w) = Fulfilled None
  \/ (exists u, fst (findOne_joined name k w) = Fulfilled (Some (k (events w) u))).
Proof.
  unfold findOne_joined.
  destruct (round_trip_cases (fun w => (Fulfilled (find_user name (users w)), w))
              (record_op OpFindOne w)) as [[es ->]|(w0 & -> & Hev & _)]; simpl; [eauto|].
  destruct (find_user name (users w0)) as [u|]; [|eauto].
  destruct (populate_query_cases (referenced u) (fun evs => Some (k evs u)) w0) as [?|H];
    [eauto|].
  right. right. exists u. rewrite H. by rewrite Hev.
Qed.

(** ** The repository functions on a quiet store *)

Lemma getUser_quiet name w :
  env w = [] ->
  getUser name w
  = (Fulfilled (hydrate (events w) true <$> find_user name (users w)), record_op OpFindOne w).
Proof.
  intros Henv.
  unfold getUser, async, try_catch, bind, call.
  by rewrite findOne_populate_quiet.
Qed.

Lemma deleteUser_quiet name w :
  env w = [] ->
  deleteUser name w
  = (Fulfilled true, with_users (delete_one name (users w)) (record_op OpDeleteOne w)).
Proof.
  intros Henv.
  unfold deleteUser, async, try_catch, bind, call, deleteOne, round_trip.
  simpl. rewrite Henv. reflexivity.
Qed.

(** [getUser] never rejects: every failure of the lookup ends in the
    handler. *)
Lemma getUser_settles name w : exists r, fst (getUser name w) = Fulfilled r.
Proof.
  unfold getUser, async, try_catch, bind, call.
  destruct (findOne_populate true name w) as [[o|e] w1]; simpl; eauto.
Qed.

Lemma sample_wf : wf sample.
Proof.
  split; apply (bool_decide_unpack _); vm_compute; exact I.
Defined.

(** ** Existence check *)

(** C8. For every username and every state of the store, [hasUser]
    answers [true] exactly when [getUser] on the same username does
    not answer the not-found sentinel [null]; it reaches the same
    state as [getUser] and its promise is never rejected. *)
Theorem hasUser_iff_getUser_not_null (name : string) (w : World) :
  exists b : bool,
    hasUser name w = (Fulfilled b, snd (getUser name w))
    /\ (b = true <-> fst (getUser name w) <> Fulfilled None).
Proof.
  destruct (getUser_settles name w) as [r Hr].
  unfold hasUser, async, bind, call.
  destruct (getUser name w) as [p w'] eqn:Hg. simpl in *. subst p. simpl.
  exists (negb (is_null r)). split; [reflexivity|].
  destruct r as [d|]; simpl.
  - split; [intros _ H; discriminate H | reflexivity].
  - split; [discriminate | intros H; by destruct H].
Qed.

(** ** Refused patterns *)

(** The syntax errors that the parser of the fragment detects are
    patterns the engine refuses, whatever the store. *)
Lemma syntax_error_is_refused (searchString : string) (w : World) :
  Regex.parse searchString = Regex.Invalid -> compile_pattern w searchString = None.
Proof. intros Hbad. unfold compile_pattern. by rewrite Hbad. Qed.

(** C9. Whenever the engine refuses the search string as a pattern
    (the syntax errors of the modelled fragment, such as an unbalanced
    parenthesis, a quantifier with nothing to repeat, a trailing
    backslash or a class that is never closed, and every other pattern
    the engine rejects), [findMatchingUsers] answers the failure
    sentinel [null]: its promise is fulfilled (nothing is thrown to
    the caller) and the value is neither a list nor the empty list.
    This holds in every state of the store and whatever the
    environment does. *)
Theorem findMatchingUsers_invalid_pattern (searchString : string) (w : World) :
  compile_pattern w searchString = None ->
  fst (findMatchingUsers searchString w) = Fulfilled None.
Proof.
  intros Hbad.
  unfold findMatchingUsers, async, try_catch, bind, call, find_regex, round_trip.
  cbn [env record_op].
  destruct (env w) as [|[| |other] es]; try reflexivity;
    match goal with
    | |- context [compile_pattern ?w' searchString] =>
        change (compile_pattern w' searchString) with (compile_pattern w searchString)
    end;
    by rewrite Hbad.
Qed.

Lemma findMatchingUsers_invalid_pattern_witness :
  (Regex.parse "(" = Regex.Invalid
   /\ fst (findMatchingUsers "(" sample) = Fulfilled None)
  /\ (Regex.parse "abc[" = Regex.Invalid
      /\ fst (findMatchingUsers "abc[" (with_env [RemoteDelete "bob"] sample))
         = Fulfilled None)
  /\ (Regex.parse "[z-a]" = Regex.Unsupported
      /\ fst (findMatchingUsers "[z-a]" sample) = Fulfilled None).
Proof.
  split; [split; [reflexivity|]|split; (split; [reflexivity|])].
  - apply (findMatchingUsers_invalid_pattern "(" sample). reflexivity.
  - apply (findMatchingUsers_invalid_pattern "abc[" (with_env [RemoteDelete "bob"] sample)).
    reflexivity.
  - apply (findMatchingUsers_invalid_pattern "[z-a]" sample). reflexivity.
Defined.

(** ** Deletion *)

(** C5. On a reachable, well-formed store and for every username,
    two calls of [deleteUser] in succession both answer [true],
    whether or not a record with that username existed, and [getUser]
    on that username afterwards answers the not-found sentinel.  The
    second call leaves the collection as the first one left it. *)
Theorem deleteUser_idempotent (name : string) (w : World) :
  env w = [] ->
  wf w ->
  let '(r1, w1) := deleteUser name w in
  let '(r2, w2) := deleteUser name w1 in
  let '(r3, _) := getUser name w2 in
  r1 = Fulfilled true /\ r2 = Fulfilled true /\ r3 = Fulfilled None
  /\ users w2 = users w1.
Proof.
  intros Henv Hwf.
  rewrite deleteUser_quiet by done.
  rewrite deleteUser_quiet by done.
  rewrite getUser_quiet by done.
  simpl.
  pose proof (find_user_delete_one name (users w) (wf_names w Hwf)) as Hgone.
  rewrite (delete_one_absent name (delete_one name (users w)) Hgone).
  rewrite Hgone. done.
Qed.

(** With the store out of reach the handler of [deleteUser] answers
    [false]. *)
Example deleteUser_unreachable :
  fst (deleteUser "alice" (with_env [Outage] sample)) = Fulfilled false.
Proof. reflexivity. Qed.

Lemma deleteUser_idempotent_witness :
  let '(r1, w1) := deleteUser "alice" sample in
  let '(r2, w2) := deleteUser "alice" w1 in
  let '(r3, _) := getUser "alice" w2 in
  r1 = Fulfilled true /\ r2 = Fulfilled true /\ r3 = Fulfilled None
  /\ users w2 = users w1.
Proof.
  apply (deleteUser_idempotent "alice" sample); [reflexivity | exact sample_wf].
Defined.

(** ** Events created by a user *)

Lemma created_by_nil u evs :
  created_by u evs = [] <-> (forall e, e ∈ evs -> creator e <> _id u).
Proof.
  unfold created_by. induction evs as [|e evs IH]; simpl.
  - split; [intros _ e He; by apply elem_of_nil in He | done].
  - destruct (Nat.eqb_spec (creator e) (_id u)) as [Heq|Hne].
    + split; [discriminate|]. intros H. exfalso. apply (H e); [left | done].
    + rewrite IH. split.
      * intros H e' He'. apply elem_of_cons in He' as [->|He']; [done | by apply H].
      * intros H e' He'. apply H. by right.
Qed.

(** The claim of C2 as the specification words it fails on the sample
    store: [alice] created event 100 and is deleted by another client
    between the two round trips of [getCreatedEvents]; the second
    query still finds her event, so the answer is not the empty
    collection. *)
Lemma getCreatedEvents_vanished_user_nonempty :
  let w := with_env [Quiet; RemoteDelete "alice"] sample in
  find_user "alice" (users w) = Some (sample_user 1 "alice")
  /\ find_user "alice" (users (snd (getCreatedEvents "alice" w))) = None
  /\ fst (getCreatedEvents "alice" w)
     = Fulfilled (Some [ {| event_id := 100; creator := 1; participants := [0; 1] |} ])
  /\ fst (getCreatedEvents "alice" w) <> Fulfilled (Some []).
Proof.
  repeat split; try (vm_compute; reflexivity).
  vm_compute. discriminate.
Qed.

(** C2 (amended). For a user who exists when [getCreatedEvents] looks
    the username up, the answer is never the failure sentinel: it is
    the collection of the events whose [creator] is that user's
    identifier, hence the empty collection exactly when the user
    created no event.  This holds when the store stays quiet and also
    when another client deletes the user right after the lookup
    ([vanished]), in which case the user is gone afterwards. *)
Theorem getCreatedEvents_collection (name : string) (u : User) (vanished : bool) (w : World) :
  wf w ->
  find_user name (users w) = Some u ->
  env w = (if vanished then [Quiet; RemoteDelete name] else []) ->
  let '(r, w') := getCreatedEvents name w in
  r = Fulfilled (Some (created_by u (events w)))
  /\ (created_by u (events w) = [] <-> (forall e, e ∈ events w -> creator e <> _id u))
  /\ (vanished = true -> find_user name (users w') = None).
Proof.
  intros Hwf Hu Henv.
  destruct vanished; js_unfold; rewrite Henv; simpl; rewrite Hu; simpl;
    destruct (referenced u); simpl; rewrite ?Henv; simpl; rewrite ?Henv; simpl;
    (split; [reflexivity|]; split; [apply created_by_nil|]);
    first [discriminate | intros _; apply find_user_delete_one, Hwf].
Qed.

Lemma getCreatedEvents_collection_witness :
  let w := with_env [Quiet; RemoteDelete "bob"] sample in
  let '(r, w') := getCreatedEvents "bob" w in
  r = Fulfilled (Some (created_by (sample_user 0 "bob") (events w)))
  /\ (created_by (sample_user 0 "bob") (events w) = []
      <-> (forall e, e ∈ events w -> creator e <> _id (sample_user 0 "bob")))
  /\ (true = true -> find_user "bob" (users w') = None).
Proof.
  apply (getCreatedEvents_collection "bob" (sample_user 0 "bob") true
           (with_env [Quiet; RemoteDelete "bob"] sample)).
  - split; apply (bool_decide_unpack _); vm_compute; exact I.
  - reflexivity.
  - reflexivity.
Defined.

(** A user who does not exist at the first round trip: reading [_id]
    of [null] throws, and the handler answers the sentinel. *)
Lemma getCreatedEvents_unknown_user name w :
  env w = [] ->
  find_user name (users w) = None ->
  fst (getCreatedEvents name w) = Fulfilled None.
Proof.
  intros Henv Hu.
  js_unfold. rewrite Henv. simpl. rewrite Hu. reflexivity.
Qed.

(** ** Creation *)

(** [addUser] returns the promise of [save] without awaiting it, so
    the handler around the [return] never runs: the promise of
    [addUser] is the promise of [save]. *)
Lemma addUser_follows_save obj w :
  exists d w1,
    User_new obj w = (Normal d, w1)
    /\ addUser obj w = (outcome_map Some (fst (save d w1)), snd (save d w1)).
Proof.
  unfold addUser, async, try_catch, bind, call.
  destruct (User_new obj w) as [c w1] eqn:Hn.
  unfold User_new in Hn. injection Hn as <- <-.
  eexists _, _. split; [reflexivity|].
  destruct (save _ _) as [[d'|e] w2]; reflexivity.
Qed.

(** C1 (the code departs from the claim). With a username that is
    already taken, the promise of [addUser] is rejected with the
    duplicate-key error of the store, and with an unreachable store it
    is rejected with the network error; [addBasicUser], which awaits
    the save inside its [try], answers [null] on the same inputs.  On
    a fresh username both answer the persisted record. *)
Theorem addUser_rejects_where_addBasicUser_answers_null :
  fst (addUser alice_again sample) = Rejected DuplicateKey
  /\ fst (addBasicUser (VStr "Alice") (VStr "Liddell") (VStr "alice")
            (VStr "alice@example.com") sample) = Fulfilled None
  /\ fst (addUser carol (with_env [Outage] sample)) = Rejected NetworkError
  /\ fst (addBasicUser (VStr "Carol") (VStr "Jones") (VStr "carol")
            (VStr "carol@example.com") (with_env [Outage] sample)) = Fulfilled None
  /\ (exists d, fst (addUser carol sample) = Fulfilled (Some d)
                /\ find_user "carol" (users (snd (addUser carol sample)))
                   = Some {| _id := doc_id d; firstname := "Carol"; lastname := "Jones";
                             username := "carol"; email := "carol@example.com";
                             participatingIn := Some [] |}).
Proof.
  repeat split; try (vm_compute; reflexivity).
  eexists. split; vm_compute; reflexivity.
Qed.

(** ** Documents and validation *)

Lemma string_path_cases (field : string) :
  field ∈ string_paths ->
  field = "firstname" \/ field = "lastname" \/ field = "username" \/ field = "email".
Proof.
  unfold string_paths. rewrite !elem_of_cons, elem_of_nil. tauto.
Qed.

Lemma validate_hydrate evs strip u :
  valid_user u = true -> validate (hydrate evs strip u) = Some u.
Proof.
  unfold valid_user, validate, required_string, refs_of. intros Hv.
  apply andb_prop in Hv as [Hv He]. apply andb_prop in Hv as [Hv Hu].
  apply andb_prop in Hv as [Hf Hl].
  apply negb_true_iff in Hf, Hl, Hu, He.
  change (paths (hydrate evs strip u) !! "firstname") with (Some (VStr (firstname u))).
  change (paths (hydrate evs strip u) !! "lastname") with (Some (VStr (lastname u))).
  change (paths (hydrate evs strip u) !! "username") with (Some (VStr (username u))).
  change (paths (hydrate evs strip u) !! "email") with (Some (VStr (email u))).
  change (paths (hydrate evs strip u) !! "participatingIn")
    with (Some (refs_value (participatingIn u))).
  cbn beta iota. rewrite Hf. simpl. rewrite Hl. simpl. rewrite Hu. simpl. rewrite He.
  destruct u as [i f l n e [ids|]]; reflexivity.
Qed.

Lemma validate_inv d u :
  validate d = Some u ->
  castErrors d = ∅
  /\ paths d !! "firstname" = Some (VStr (firstname u)) /\ firstname u <> ""
  /\ paths d !! "lastname" = Some (VStr (lastname u)) /\ lastname u <> ""
  /\ paths d !! "username" = Some (VStr (username u)) /\ username u <> ""
  /\ paths d !! "email" = Some (VStr (email u)) /\ email u <> ""
  /\ refs_of d = Some (participatingIn u)
  /\ _id u = doc_id d.
Proof.
  unfold validate, required_string. intros H.
  case_bool_decide as Hc; [|discriminate].
  destruct (paths d !! "firstname") as [[|sf| |]|]; try discriminate.
  destruct (String.eqb_spec sf "") as [|Hsf]; try discriminate.
  destruct (paths d !! "lastname") as [[|sl| |]|]; try discriminate.
  destruct (String.eqb_spec sl "") as [|Hsl]; try discriminate.
  destruct (paths d !! "username") as [[|sn| |]|]; try discriminate.
  destruct (String.eqb_spec sn "") as [|Hsn]; try discriminate.
  destruct (paths d !! "email") as [[|se| |]|]; try discriminate.
  destruct (String.eqb_spec se "") as [|Hse]; try discriminate.
  destruct (refs_of d) as [r|]; try discriminate.
  simpl in H. injection H as <-. simpl. done.
Qed.

Lemma validate_intro d f l n e r :
  castErrors d = ∅ ->
  paths d !! "firstname" = Some (VStr f) -> f <> "" ->
  paths d !! "lastname" = Some (VStr l) -> l <> "" ->
  paths d !! "username" = Some (VStr n) -> n <> "" ->
  paths d !! "email" = Some (VStr e) -> e <> "" ->
  refs_of d = Some r ->
  validate d = Some {| _id := doc_id d; firstname := f; lastname := l; username := n;
                       email := e; participatingIn := r |}.
Proof.
  intros Hc Hf Hf' Hl Hl' Hn Hn' He He' Hr.
  unfold validate, required_string.
  rewrite bool_decide_eq_true_2 by done.
  rewrite Hf, Hl, Hn, He, Hr.
  apply String.eqb_neq in Hf', Hl', Hn', He'.
  rewrite Hf', Hl', Hn', He'. reflexivity.
Qed.

(** Assigning a non-empty string to a string path of a valid document
    gives a valid document whose record carries the new value. *)
Lemma validate_assign_string d u field s :
  validate d = Some u ->
  field ∈ string_paths ->
  s <> "" ->
  validate (assign d field (VStr s)) = Some (with_string u field s).
Proof.
  intros Hv Hf Hs.
  apply validate_inv in Hv as (Hc & Hfn & Hfn' & Hln & Hln' & Hun & Hun' & Hem & Hem' & Hr & Hid).
  unfold assign, is_string_path. rewrite bool_decide_eq_true_2 by done.
  unfold with_string. rewrite Hid.
  apply string_path_cases in Hf as [-> | [-> | [-> | ->]]]; simpl;
    (erewrite validate_intro; [reflexivity | ..]); simpl;
    rewrite ?lookup_insert_eq, ?lookup_insert_ne by done;
    try done; try (rewrite Hc; by apply subseteq_empty_difference_L);
    unfold refs_of in *; simpl;
    rewrite ?lookup_insert_ne by done; done.
Qed.

(** A name outside the schema lands among the object's own
    properties and leaves the validated record as it was. *)
Lemma validate_assign_unknown d field v :
  is_string_path field = false ->
  field <> "participatingIn" ->
  validate (assign d field v) = validate d
  /\ own (assign d field v) !! field = Some v
  /\ paths (assign d field v) = paths d.
Proof.
  intros Hs Hp. unfold assign. rewrite Hs.
  apply String.eqb_neq in Hp. rewrite Hp. simpl.
  split; [reflexivity|]. split; [apply lookup_insert_eq | reflexivity].
Qed.

(** ** The update loop *)

Lemma for_of_found updates d w :
  for_of updates (Some d) w = (Normal (Some (assign_all updates d)), w).
Proof.
  revert d. induction updates as [|[field v] rest IH]; intros d; [reflexivity|].
  simpl. unfold bind. simpl. apply IH.
Qed.

Lemma for_of_null updates w :
  for_of updates None w
  = (match updates with [] => Normal None | _ :: _ => Thrown TypeError end, w).
Proof. destruct updates as [|[field v] rest]; reflexivity. Qed.

Lemma assign_all_app pre post d :
  assign_all (pre ++ post) d = assign_all post (assign_all pre d).
Proof. apply fold_left_app. Qed.

(** An assignment to another name does not change what a name holds. *)
Lemma assign_other d field other v :
  field <> other ->
  paths (assign d other v) !! field = paths d !! field
  /\ own (assign d other v) !! field = own d !! field.
Proof.
  intros Hne. unfold assign.
  destruct (is_string_path other); [destruct v|]; simpl;
    rewrite ?lookup_insert_ne by done; try done.
  destruct (String.eqb other "participatingIn"); [destruct v|]; simpl;
    rewrite ?lookup_insert_ne by done; done.
Qed.

Lemma assign_all_other updates d field :
  field ∉ updates.*1 ->
  paths (assign_all updates d) !! field = paths d !! field
  /\ own (assign_all updates d) !! field = own d !! field.
Proof.
  revert d. induction updates as [|[other v] rest IH]; intros d Hnot; [done|].
  simpl in *. apply not_elem_of_cons in Hnot as [Hne Hnot].
  destruct (IH (assign d other v) Hnot) as [-> ->].
  by apply assign_other.
Qed.

(** Later entries win: what a name holds after the loop is what the
    last entry that targets it left there. *)
Lemma assign_all_last pre post d field v :
  field ∉ post.*1 ->
  paths (assign_all (pre ++ (field, v) :: post) d) !! field
  = paths (assign (assign_all pre d) field v) !! field
  /\ own (assign_all (pre ++ (field, v) :: post) d) !! field
     = own (assign (assign_all pre d) field v) !! field.
Proof.
  intros Hnot. rewrite assign_all_app. simpl.
  by apply assign_all_other.
Qed.

(** ** Saving an existing document *)

Lemma existsb_id_found (u : User) (i : Id) (us : list User) :
  u ∈ us -> _id u = i -> existsb (fun x => Nat.eqb (_id x) i) us = true.
Proof.
  intros Hin Hid. apply existsb_exists. exists u.
  split; [by apply list_elem_of_In | by apply Nat.eqb_eq].
Qed.

Lemma existsb_no_clash (u : User) (us : list User) :
  (forall x, x ∈ us -> username x = username u -> _id x = _id u) ->
  existsb (fun x => negb (Nat.eqb (_id x) (_id u)) && String.eqb (username x) (username u)) us
  = false.
Proof.
  intros Hown. apply not_true_is_false. intros H.
  apply existsb_exists in H as (x & Hin & Hx).
  apply andb_prop in Hx as [Hid Hname].
  apply negb_true_iff, Nat.eqb_neq in Hid. apply String.eqb_eq in Hname.
  apply Hid, Hown; [by apply list_elem_of_In | done].
Qed.

Lemma save_existing_quiet d u' u w :
  env w = [] ->
  isNew d = false ->
  validate d = Some u' ->
  u ∈ users w -> _id u = _id u' ->
  (forall x, x ∈ users w -> username x = username u' -> _id x = _id u') ->
  save d w = (Fulfilled (saved d), with_users (replace_user u' (users w)) (record_op OpSave w)).
Proof.
  intros Henv Hold Hv Hin Hid Hown.
  unfold save, round_trip, update_user. rewrite Hv, Hold. simpl. rewrite Henv.
  rewrite (existsb_id_found u (_id u') (users w)) by done.
  rewrite existsb_no_clash by done. reflexivity.
Qed.

(** Lookups by name in a collection where one record was rewritten. *)
Lemma find_user_replaced name u' us :
  username u' = name ->
  (exists x, x ∈ us /\ _id x = _id u') ->
  (forall x, x ∈ us -> username x = name -> _id x = _id u') ->
  find_user name (replace_user u' us) = Some u'.
Proof.
  intros Hname Hex Hown. unfold find_user, replace_user.
  induction us as [|x us IH]; simpl.
  - destruct Hex as (x & Hx & _). by apply elem_of_nil in Hx.
  - destruct (Nat.eqb_spec (_id x) (_id u')) as [Heq|Hne].
    + rewrite Hname, String.eqb_refl. reflexivity.
    + destruct (String.eqb_spec (username x) name) as [Hn|Hn].
      * exfalso. apply Hne, Hown; [left | done].
      * apply IH.
        -- destruct Hex as (y & Hy & Hid). apply elem_of_cons in Hy as [->|Hy]; [done|].
           by exists y.
        -- intros y Hy. apply Hown. by right.
Qed.

Lemma find_user_renamed name u' us :
  username u' <> name ->
  (forall x, x ∈ us -> username x = name -> _id x = _id u') ->
  find_user name (replace_user u' us) = None.
Proof.
  intros Hname Hown. unfold find_user, replace_user.
  induction us as [|x us IH]; simpl; [done|].
  destruct (Nat.eqb_spec (_id x) (_id u')) as [Heq|Hne].
  - destruct (String.eqb_spec (username u') name); [done|].
    apply IH. intros y Hy. apply Hown. by right.
  - destruct (String.eqb_spec (username x) name) as [Hn|Hn].
    + exfalso. apply Hne, Hown; [left | done].
    + apply IH. intros y Hy. apply Hown. by right.
Qed.

(** Under the unique index a name belongs to one record. *)
Lemma unique_name u x us :
  NoDup (username <$> us) -> u ∈ us -> x ∈ us -> username x = username u -> x = u.
Proof.
  induction us as [|y us IH]; simpl; intros Hnd Hu Hx Heq.
  - by apply elem_of_nil in Hu.
  - apply NoDup_cons in Hnd as [Hy Hnd].
    apply elem_of_cons in Hu as [->|Hu]; apply elem_of_cons in Hx as [->|Hx]; try done.
    + exfalso. apply Hy. rewrite <- Heq. by apply list_elem_of_fmap_2.
    + exfalso. apply Hy. rewrite Heq. by apply list_elem_of_fmap_2.
    + by apply IH.
Qed.

(** ** [updateUser] and [multiUpdateUser] on a quiet store *)

Lemma multiUpdateUser_found name updates u w :
  env w = [] ->
  find_user name (users w) = Some u ->
  multiUpdateUser name updates w
  = let d := assign_all updates (hydrate (events w) false u) in
    let w1 := record_op OpFindOne w in
    match own d !! "save" with
    | Some _ => (Fulfilled None, w1)
    | None => (null_on_rejection (fst (save d w1)), snd (save d w1))
    end.
Proof.
  intros Henv Hu.
  unfold multiUpdateUser, async, try_catch, bind at 1 2.
  unfold call at 1. rewrite findOne_populate_quiet by done. rewrite Hu. simpl.
  unfold bind at 1. rewrite for_of_found.
  unfold bind, invoke_save, call.
  destruct (own _ !! "save"); [reflexivity|].
  destruct (save _ _) as [[d'|e] w2]; reflexivity.
Qed.

Lemma find_user_delete_absent name other us :
  find_user name us = None -> find_user name (delete_one other us) = None.
Proof.
  intros Hu. apply find_user_None. intros Hin. apply find_user_None in Hu. apply Hu.
  clear Hu. induction us as [|x us IH]; simpl in *; [done|].
  destruct (String.eqb (username x) other); simpl in *.
  - by right.
  - apply elem_of_cons in Hin as [->|Hin]; [left | right; by apply IH].
Qed.

(** A username that is not stored is not found, whatever the
    environment does. *)
Lemma findOne_joined_absent {A} name (k : list Event -> User -> A) w :
  find_user name (users w) = None ->
  (exists e, fst (findOne_joined name k w) = Rejected e)
  \/ fst (findOne_joined name k w) = Fulfilled None.
Proof.
  intros Hu. unfold findOne_joined, round_trip. simpl.
  destruct (env w) as [|[| |other] es]; simpl;
    rewrite ?(find_user_delete_absent _ _ _ Hu), ?Hu; eauto.
Qed.

Lemma multiUpdateUser_not_found name updates w :
  find_user name (users w) = None ->
  fst (multiUpdateUser name updates w) = Fulfilled None.
Proof.
  intros Hu.
  pose proof (findOne_joined_absent name (fun evs u => hydrate evs false u) w Hu) as Hfind.
  unfold multiUpdateUser, async, try_catch, bind at 1 2.
  unfold call at 1, findOne_populate.
  destruct (findOne_joined name _ w) as [[[d|]|e] w1]; simpl in *.
  - destruct Hfind as [[e He]|He]; discriminate He.
  - unfold bind at 1. rewrite for_of_null. destruct updates; reflexivity.
  - reflexivity.
Qed.

Lemma updateUser_as_loop name field v w :
  updateUser name field v w = multiUpdateUser name [(field, v)] w.
Proof.
  unfold updateUser, multiUpdateUser, async, try_catch, call. simpl. unfold bind.
  destruct (findOne_populate false name w) as [[[d|]|e] w1]; reflexivity.
Qed.

Lemma isNew_assign d field v : isNew (assign d field v) = isNew d.
Proof.
  unfold assign. destruct (is_string_path field); [by destruct v|].
  destruct (String.eqb field "participatingIn"); [by destruct v | done].
Qed.

Lemma doc_id_assign d field v : doc_id (assign d field v) = doc_id d.
Proof.
  unfold assign. destruct (is_string_path field); [by destruct v|].
  destruct (String.eqb field "participatingIn"); [by destruct v | done].
Qed.

Lemma isNew_assign_all updates d : isNew (assign_all updates d) = isNew d.
Proof.
  revert d. induction updates as [|[field v] rest IH]; intros d; [done|].
  simpl. unfold assign_all in IH. rewrite IH. apply isNew_assign.
Qed.

(** The save at the end of [multiUpdateUser], when the document in
    memory passes validation and its username clashes with no other
    record. *)
Lemma multiUpdateUser_saves name updates u u' w :
  env w = [] ->
  find_user name (users w) = Some u ->
  own (assign_all updates (hydrate (events w) false u)) !! "save" = None ->
  validate (assign_all updates (hydrate (events w) false u)) = Some u' ->
  _id u' = _id u ->
  (forall x, x ∈ users w -> username x = username u' -> _id x = _id u') ->
  multiUpdateUser name updates w
  = (Fulfilled (Some (saved (assign_all updates (hydrate (events w) false u)))),
     with_users (replace_user u' (users w)) (record_op OpSave (record_op OpFindOne w))).
Proof.
  intros Henv Hu Hsave Hv Hid Hown.
  rewrite (multiUpdateUser_found name updates u w Henv Hu). simpl. rewrite Hsave.
  apply find_user_Some in Hu as [Hin _].
  rewrite (save_existing_quiet _ u' u); try done.
  rewrite isNew_assign_all. reflexivity.
Qed.

(** What [getUser] sees after such a save. *)
Lemma getUser_after_save name u' w :
  env w = [] ->
  username u' = name ->
  (exists x, x ∈ users w /\ _id x = _id u') ->
  (forall x, x ∈ users w -> username x = name -> _id x = _id u') ->
  fst (getUser name (with_users (replace_user u' (users w))
                       (record_op OpSave (record_op OpFindOne w))))
  = Fulfilled (Some (hydrate (events w) true u')).
Proof.
  intros Henv Hname Hex Hown.
  rewrite getUser_quiet by done. simpl.
  by rewrite find_user_replaced.
Qed.

Lemma hydrate_reads_validated evs strip d u field :
  validate d = Some u ->
  field ∈ string_paths ->
  paths (hydrate evs strip u) !! field = paths d !! field.
Proof.
  intros Hv Hf.
  apply validate_inv in Hv as (_ & Hfn & _ & Hln & _ & Hun & _ & Hem & _).
  apply string_path_cases in Hf as [-> | [-> | [-> | ->]]]; symmetry; assumption.
Qed.

Lemma acceptable_inv (element : string * Value) :
  acceptable element = true ->
  exists s, snd element = VStr s /\ s <> ""
            /\ fst element ∈ string_paths /\ fst element <> "username".
Proof.
  destruct element as [field v]. unfold acceptable. simpl. intros H.
  apply andb_prop in H as [Hf Hv]. apply bool_decide_eq_true in Hf.
  destruct v as [|s| |]; try discriminate. exists s.
  apply negb_true_iff, String.eqb_neq in Hv.
  split; [done|]. split; [done|].
  rewrite !elem_of_cons, elem_of_nil in Hf. unfold string_paths.
  destruct Hf as [-> | [-> | [-> | []]]]; split; try done; set_solver.
Qed.

Lemma assign_all_acceptable updates d u :
  forallb acceptable updates = true ->
  validate d = Some u ->
  exists u', validate (assign_all updates d) = Some u'
             /\ _id u' = _id u /\ username u' = username u
             /\ own (assign_all updates d) = own d.
Proof.
  revert d u. induction updates as [|[field v] rest IH]; intros d u Hacc Hv.
  - by exists u.
  - simpl in Hacc. apply andb_prop in Hacc as [Hel Hrest].
    apply acceptable_inv in Hel as (s & Hs & Hne & Hfield & Hkey). simpl in Hs, Hfield, Hkey.
    subst v.
    pose proof (validate_assign_string d u field s Hv Hfield Hne) as Hv'.
    destruct (IH _ _ Hrest Hv') as (u' & Hu' & Hid & Hname & Hown).
    change (assign_all ((field, VStr s) :: rest) d)
      with (assign_all rest (assign d field (VStr s))).
    exists u'. split; [done|]. split; [done|]. split.
    + rewrite Hname. unfold with_string. simpl.
      apply String.eqb_neq in Hkey. by rewrite Hkey.
    + rewrite Hown. unfold assign, is_string_path.
      by rewrite bool_decide_eq_true_2.
Qed.

(** ** Updates *)

(** C6. On a reachable, well-formed store, for an existing user and a
    list of updates that each give a non-empty string to [firstname],
    [lastname] or [email], [multiUpdateUser] answers the record, makes
    exactly two calls on the mapper (the lookup, then a single [save]
    at the end), and for every field the last entry that targets it
    wins: its value is the one in the returned record and the one
    [getUser] reads afterwards. *)
Theorem multiUpdateUser_later_entry_wins
    (name : string) (u : User) (updates : list (string * Value)) (w : World) :
  env w = [] ->
  wf w ->
  find_user name (users w) = Some u ->
  forallb acceptable updates = true ->
  let '(r, w') := multiUpdateUser name updates w in
  exists d,
    r = Fulfilled (Some d)
    /\ log w' = log w ++ [OpFindOne; OpSave]
    /\ forall pre field v post,
         updates = pre ++ (field, v) :: post ->
         field ∉ post.*1 ->
         paths d !! field = Some v
         /\ exists d', fst (getUser name w') = Fulfilled (Some d')
                       /\ paths d' !! field = Some v.
Proof.
  intros Henv Hwf Hu Hacc.
  pose proof (find_user_Some _ _ _ Hu) as [Hin Hname].
  assert (valid_user u = true) as Hvalid.
  { pose proof (wf_valid w Hwf) as Hall. rewrite Forall_forall in Hall. by apply Hall. }
  destruct (assign_all_acceptable updates (hydrate (events w) false u) u Hacc
              (validate_hydrate _ _ _ Hvalid)) as (u' & Hv & Hid & Hkey & Hown).
  assert (forall x, x ∈ users w -> username x = username u' -> _id x = _id u') as Hone.
  { intros x Hx Hxn. rewrite Hkey in Hxn.
    rewrite (unique_name u x (users w) (wf_names w Hwf) Hin Hx Hxn). done. }
  rewrite (multiUpdateUser_saves name updates u u' w); try done.
  2: { rewrite Hown. reflexivity. }
  eexists. split; [reflexivity|]. split.
  { simpl. by rewrite <- app_assoc. }
  intros pre field v post Hsplit Hlast.
  assert (acceptable (field, v) = true) as Hel.
  { rewrite forallb_forall in Hacc. apply Hacc. rewrite Hsplit.
    apply in_or_app. right. by left. }
  apply acceptable_inv in Hel as (s & Hs & Hne & Hfield & _). simpl in *. subst v.
  assert (paths (assign_all updates (hydrate (events w) false u)) !! field = Some (VStr s))
    as Hread.
  { rewrite Hsplit.
    destruct (assign_all_last pre post (hydrate (events w) false u) field (VStr s) Hlast)
      as [-> _].
    unfold assign, is_string_path. rewrite bool_decide_eq_true_2 by done.
    simpl. apply lookup_insert_eq. }
  split; [exact Hread|].
  eexists. split.
  - apply getUser_after_save; try done.
    + by rewrite Hkey.
    + exists u. by split.
    + intros x Hx Hxn. apply Hone; [done|]. by rewrite Hkey, Hname.
  - rewrite <- Hread. by apply hydrate_reads_validated.
Qed.

Lemma multiUpdateUser_later_entry_wins_witness :
  let '(r, w') := multiUpdateUser "alice"
                    [("email", VStr "a@x.com"); ("email", VStr "b@x.com")] sample in
  exists d,
    r = Fulfilled (Some d)
    /\ log w' = log sample ++ [OpFindOne; OpSave]
    /\ forall pre field v post,
         [("email", VStr "a@x.com"); ("email", VStr "b@x.com")] = pre ++ (field, v) :: post ->
         field ∉ post.*1 ->
         paths d !! field = Some v
         /\ exists d', fst (getUser "alice" w') = Fulfilled (Some d')
                       /\ paths d' !! field = Some v.
Proof.
  apply (multiUpdateUser_later_entry_wins "alice" (sample_user 1 "alice")
           [("email", VStr "a@x.com"); ("email", VStr "b@x.com")] sample).
  - reflexivity.
  - exact sample_wf.
  - reflexivity.
  - reflexivity.
Defined.

(** The example of the specification, evaluated: the later address is
    the one returned, the one stored, and one [save] was made. *)
Example multiUpdateUser_email_twice :
  let '(r, w') := multiUpdateUser "alice"
                    [("email", VStr "a@x.com"); ("email", VStr "b@x.com")] sample in
  (exists d, r = Fulfilled (Some d) /\ paths d !! "email" = Some (VStr "b@x.com"))
  /\ email <$> find_user "alice" (users w') = Some "b@x.com"
  /\ log w' = [OpFindOne; OpSave].
Proof.
  vm_compute. split; [|split; reflexivity].
  eexists. split; reflexivity.
Qed.

(** [updateUser] on a username that no record carries: the assignment
    on [null] throws and the handler answers the sentinel, whatever
    the environment does. *)
Lemma updateUser_not_found name field v w :
  find_user name (users w) = None ->
  fst (updateUser name field v w) = Fulfilled None.
Proof.
  intros Hu. rewrite updateUser_as_loop. by apply multiUpdateUser_not_found.
Qed.

(** The claim of C7 as the specification words it fails for the field
    [username], which is a valid schema field: after the update the
    record is no longer found under the username that was used. *)
Lemma updateUser_username_then_getUser_null :
  find_user "alice" (users sample) = Some (sample_user 1 "alice")
  /\ "username" ∈ string_paths
  /\ (exists d, fst (updateUser "alice" "username" (VStr "alicia") sample)
                = Fulfilled (Some d))
  /\ fst (getUser "alice" (snd (updateUser "alice" "username" (VStr "alicia") sample)))
     = Fulfilled None.
Proof.
  split; [reflexivity|]. split; [set_solver|]. split.
  - eexists. vm_compute. reflexivity.
  - vm_compute. reflexivity.
Qed.

(** C7 (amended). On a reachable, well-formed store: when a record
    carries the username, [updateUser] with one of the fields
    [firstname], [lastname], [email] and a non-empty string answers
    the record with the field set, and [getUser] on the same username
    afterwards answers a record whose field equals the new value;
    when no record carries the username, [updateUser] answers the
    failure sentinel [null]. *)
Theorem updateUser_then_getUser
    (name field s : string) (found : option User) (w : World) :
  env w = [] ->
  wf w ->
  find_user name (users w) = found ->
  field ∈ ["firstname"; "lastname"; "email"] ->
  s <> "" ->
  let '(r, w') := updateUser name field (VStr s) w in
  match found with
  | Some _ =>
      (exists d, r = Fulfilled (Some d) /\ paths d !! field = Some (VStr s))
      /\ (exists d', fst (getUser name w') = Fulfilled (Some d')
                     /\ paths d' !! field = Some (VStr s))
  | None => r = Fulfilled None
  end.
Proof.
  intros Henv Hwf Hfound Hfield Hs.
  destruct found as [u|].
  - pose proof (find_user_Some _ _ _ Hfound) as [Hin Hname].
    assert (valid_user u = true) as Hvalid.
    { pose proof (wf_valid w Hwf) as Hall. rewrite Forall_forall in Hall. by apply Hall. }
    assert (field ∈ string_paths /\ String.eqb field "username" = false) as [Hpath Hkey].
    { rewrite !elem_of_cons, elem_of_nil in Hfield. unfold string_paths.
      destruct Hfield as [-> | [-> | [-> | []]]]; split; try done; set_solver. }
    pose proof (validate_assign_string (hydrate (events w) false u) u field s
                  (validate_hydrate _ _ _ Hvalid) Hpath Hs) as Hv.
    assert (username (with_string u field s) = name) as Hsame.
    { simpl. by rewrite Hkey. }
    assert (forall x, x ∈ users w -> username x = name -> _id x = _id u) as Hone.
    { intros x Hx Hxn. rewrite <- Hname in Hxn.
      by rewrite (unique_name u x (users w) (wf_names w Hwf) Hin Hx Hxn). }
    assert (paths (assign (hydrate (events w) false u) field (VStr s)) !! field
            = Some (VStr s)) as Hread.
    { unfold assign, is_string_path. rewrite bool_decide_eq_true_2 by done.
      simpl. apply lookup_insert_eq. }
    rewrite updateUser_as_loop.
    rewrite (multiUpdateUser_saves name [(field, VStr s)] u (with_string u field s) w);
      try done.
    + split.
      * eexists. split; [reflexivity | exact Hread].
      * eexists. split.
        -- apply getUser_after_save; try done. exists u. by split.
        -- rewrite <- Hread. by apply hydrate_reads_validated.
    + simpl. unfold assign, is_string_path. by rewrite bool_decide_eq_true_2.
    + intros x Hx Hxn. apply Hone; [done|]. by rewrite <- Hsame.
  - pose proof (updateUser_not_found name field (VStr s) w Hfound) as Hnull.
    by destruct (updateUser name field (VStr s) w).
Qed.

Lemma updateUser_then_getUser_witness :
  let '(r, w') := updateUser "alice" "email" (VStr "alice@new.example") sample in
  (exists d, r = Fulfilled (Some d) /\ paths d !! "email" = Some (VStr "alice@new.example"))
  /\ (exists d', fst (getUser "alice" w') = Fulfilled (Some d')
                 /\ paths d' !! "email" = Some (VStr "alice@new.example")).
Proof.
  apply (updateUser_then_getUser "alice" "email" "alice@new.example"
           (Some (sample_user 1 "alice")) sample).
  - reflexivity.
  - exact sample_wf.
  - reflexivity.
  - apply (bool_decide_unpack _). vm_compute. exact I.
  - discriminate.
Defined.

(** C10. The lookup key can be reassigned through [updateUser]: on a
    reachable, well-formed store, for an existing user and a new name
    that is a non-empty string no record carries, the update of the
    field [username] succeeds, [getUser] on the new name then answers
    that user's record, and [getUser] on the old name answers the
    not-found sentinel. *)
Theorem updateUser_reassigns_username (name newName : string) (u : User) (w : World) :
  env w = [] ->
  wf w ->
  find_user name (users w) = Some u ->
  newName <> "" ->
  find_user newName (users w) = None ->
  let '(r, w') := updateUser name "username" (VStr newName) w in
  (exists d, r = Fulfilled (Some d) /\ doc_id d = _id u
             /\ paths d !! "username" = Some (VStr newName))
  /\ (exists d', fst (getUser newName w') = Fulfilled (Some d') /\ doc_id d' = _id u
                 /\ paths d' !! "username" = Some (VStr newName))
  /\ fst (getUser name w') = Fulfilled None.
Proof.
  intros Henv Hwf Hu Hnew Hfree.
  pose proof (find_user_Some _ _ _ Hu) as [Hin Hname].
  assert (valid_user u = true) as Hvalid.
  { pose proof (wf_valid w Hwf) as Hall. rewrite Forall_forall in Hall. by apply Hall. }
  assert (name <> newName) as Hdiff.
  { intros ->. congruence. }
  pose proof (validate_assign_string (hydrate (events w) false u) u "username" newName
                (validate_hydrate _ _ _ Hvalid)) as Hv.
  specialize (Hv ltac:(set_solver) Hnew).
  assert (forall x, x ∈ users w -> username x = newName -> _id x = _id u) as Hnone.
  { intros x Hx Hxn. exfalso. apply find_user_None in Hfree. apply Hfree.
    rewrite <- Hxn. by apply list_elem_of_fmap_2. }
  rewrite updateUser_as_loop.
  rewrite (multiUpdateUser_saves name [("username", VStr newName)] u
             (with_string u "username" newName) w); try done.
  split; [|split].
  - eexists. split; [reflexivity|]. split; reflexivity.
  - exists (hydrate (events w) true (with_string u "username" newName)).
    split; [|split; reflexivity].
    apply (getUser_after_save newName (with_string u "username" newName) w); try done.
    exists u. by split.
  - rewrite getUser_quiet by done. simpl.
    rewrite find_user_renamed; [done | simpl; congruence |].
    intros x Hx Hxn. simpl.
    rewrite (unique_name u x (users w) (wf_names w Hwf) Hin Hx); [done | congruence].
Qed.

Lemma updateUser_reassigns_username_witness :
  let '(r, w') := updateUser "alice" "username" (VStr "alicia") sample in
  (exists d, r = Fulfilled (Some d) /\ doc_id d = _id (sample_user 1 "alice")
             /\ paths d !! "username" = Some (VStr "alicia"))
  /\ (exists d', fst (getUser "alicia" w') = Fulfilled (Some d')
                 /\ doc_id d' = _id (sample_user 1 "alice")
                 /\ paths d' !! "username" = Some (VStr "alicia"))
  /\ fst (getUser "alice" w') = Fulfilled None.
Proof.
  apply (updateUser_reassigns_username "alice" "alicia" (sample_user 1 "alice") sample).
  - reflexivity.
  - exact sample_wf.
  - reflexivity.
  - discriminate.
  - reflexivity.
Defined.

(** A taken name is refused by the unique index, and the handler turns
    the refusal into the sentinel. *)
Example updateUser_username_taken :
  fst (updateUser "alice" "username" (VStr "bob") sample) = Fulfilled None.
Proof. vm_compute. reflexivity. Qed.

(** An empty string does not pass the validation of a required field:
    the answer is the sentinel and the stored record keeps its value. *)
Example updateUser_empty_string_refused :
  fst (updateUser "alice" "email" (VStr "") sample) = Fulfilled None
  /\ email <$> find_user "alice" (users (snd (updateUser "alice" "email" (VStr "") sample)))
     = Some "alice@example.org".
Proof. split; vm_compute; reflexivity. Qed.

(** After an update of [participatingIn], what [getUser] shows under
    that name is the joined events, not the references assigned. *)
Example updateUser_references_come_back_joined :
  outcome_map (fmap joined)
    (fst (getUser "alice" (snd (updateUser "alice" "participatingIn" (VIds [100]) sample))))
  = Fulfilled (Some (Some [ {| view_id := 100; view_creator := 1;
                               view_participants := None |} ])).
Proof. vm_compute. reflexivity. Qed.

(** ** Names outside the schema *)

(** C3 (the code departs from the claim). For the existing user
    [alice] and the name [nickname], which is not a field of the
    schema, [updateUser] answers the record and not [null]: the
    value sits on the returned object as a property, the save
    succeeds, and the stored record is unchanged. *)
Theorem updateUser_invalid_field_answers_record :
  is_string_path "nickname" = false
  /\ (exists d, fst (updateUser "alice" "nickname" (VStr "al") sample) = Fulfilled (Some d)
                /\ own d !! "nickname" = Some (VStr "al"))
  /\ fst (updateUser "alice" "nickname" (VStr "al") sample) <> Fulfilled None
  /\ users (snd (updateUser "alice" "nickname" (VStr "al") sample)) = users sample.
Proof.
  split; [reflexivity|]. split; [|split].
  - eexists. split; vm_compute; reflexivity.
  - vm_compute. discriminate.
  - vm_compute. reflexivity.
Qed.

(** ** The pattern engine *)

Lemma lower_idempotent (c : ascii) : Regex.lower (Regex.lower c) = Regex.lower c.
Proof. destruct c as [[] [] [] [] [] [] [] []]; reflexivity. Qed.

Lemma lower_newline (c : ascii) :
  Regex.is_newline [Regex.lower c] = Regex.is_newline [c].
Proof. destruct c as [[] [] [] [] [] [] [] []]; reflexivity. Qed.

Lemma letter_eq_lower (c : ascii) (x : Regex.uchar) :
  Regex.letter_eq (Regex.lower c) x = Regex.letter_eq c x.
Proof. unfold Regex.letter_eq. by rewrite lower_idempotent. Qed.

Lemma letter_eq_fold (c : ascii) (x : Regex.uchar) :
  Regex.letter_eq c (Regex.fold_uchar x) = Regex.letter_eq c x.
Proof.
  destruct x as [|b [|b2 rest]].
  - reflexivity.
  - simpl. by rewrite lower_idempotent.
  - unfold Regex.fold_uchar.
    destruct (decide (b :: b2 :: rest = Regex.kelvin)) as [->|Hk].
    + change (Ascii.eqb (Regex.lower c) "k"
              = (Ascii.eqb (Regex.lower c) "k" && true)
                || (Ascii.eqb (Regex.lower c) "s" && false)).
      destruct (Ascii.eqb (Regex.lower c) "k"), (Ascii.eqb (Regex.lower c) "s");
        reflexivity.
    + rewrite (bool_decide_eq_false_2 _ Hk).
      destruct (decide (b :: b2 :: rest = Regex.long_s)) as [->|Hs].
      * change (Ascii.eqb (Regex.lower c) "s"
                = (Ascii.eqb (Regex.lower c) "k" && false)
                  || (Ascii.eqb (Regex.lower c) "s" && true)).
        destruct (Ascii.eqb (Regex.lower c) "k"), (Ascii.eqb (Regex.lower c) "s");
          reflexivity.
      * by rewrite (bool_decide_eq_false_2 _ Hs).
Qed.

Lemma is_newline_fold (x : Regex.uchar) :
  Regex.is_newline (Regex.fold_uchar x) = Regex.is_newline x.
Proof.
  destruct x as [|b [|b2 rest]].
  - reflexivity.
  - apply lower_newline.
  - unfold Regex.fold_uchar.
    destruct (decide (b :: b2 :: rest = Regex.kelvin)) as [->|Hk]; [reflexivity|].
    rewrite (bool_decide_eq_false_2 _ Hk).
    destruct (decide (b :: b2 :: rest = Regex.long_s)) as [->|Hs]; [reflexivity|].
    by rewrite (bool_decide_eq_false_2 _ Hs).
Qed.

(** Matching does not see the case of the subject: folding the subject
    to lower case changes no step of the matcher. *)
Lemma run_case_insensitive fuel :
  forall r bol s k k',
    (forall b t, k b t = k' b (List.map Regex.fold_uchar t)) ->
    Regex.run fuel r bol s k = Regex.run fuel r bol (List.map Regex.fold_uchar s) k'.
Proof.
  induction fuel as [|f IHf]; [reflexivity|].
  induction r as [|c| | | |r1 IH1 r2 IH2|r1 IH1 r2 IH2|r IH]; intros bol s k k' Hk.
  - apply Hk.
  - destruct s as [|x s]; [reflexivity|].
    cbn. rewrite letter_eq_fold. f_equal. apply Hk.
  - destruct s as [|x s]; [reflexivity|].
    cbn. rewrite is_newline_fold. f_equal. apply Hk.
  - cbn. f_equal. apply Hk.
  - destruct s as [|x [|y s]]; cbn.
    + apply Hk.
    + rewrite is_newline_fold. f_equal. apply Hk.
    + reflexivity.
  - change (Regex.run (S f) (Regex.Seq r1 r2) bol s k)
      with (Regex.run (S f) r1 bol s (fun b s' => Regex.run (S f) r2 b s' k)).
    change (Regex.run (S f) (Regex.Seq r1 r2) bol (List.map Regex.fold_uchar s) k')
      with (Regex.run (S f) r1 bol (List.map Regex.fold_uchar s)
              (fun b s' => Regex.run (S f) r2 b s' k')).
    apply IH1. intros b t. by apply IH2.
  - change (Regex.run (S f) (Regex.Alt r1 r2) bol s k)
      with (Regex.run (S f) r1 bol s k || Regex.run (S f) r2 bol s k).
    change (Regex.run (S f) (Regex.Alt r1 r2) bol (List.map Regex.fold_uchar s) k')
      with (Regex.run (S f) r1 bol (List.map Regex.fold_uchar s) k'
            || Regex.run (S f) r2 bol (List.map Regex.fold_uchar s) k').
    f_equal; [by apply IH1 | by apply IH2].
  - change (Regex.run (S f) (Regex.Star r) bol s k)
      with (k bol s
            || Regex.run (S f) r bol s
                 (fun b s' => Nat.ltb (length s') (length s)
                              && Regex.run f (Regex.Star r) b s' k)).
    change (Regex.run (S f) (Regex.Star r) bol (List.map Regex.fold_uchar s) k')
      with (k' bol (List.map Regex.fold_uchar s)
            || Regex.run (S f) r bol (List.map Regex.fold_uchar s)
                 (fun b s' => Nat.ltb (length s') (length (List.map Regex.fold_uchar s))
                              && Regex.run f (Regex.Star r) b s' k')).
    f_equal; [apply Hk|].
    apply IH. intros b t. rewrite !length_map. f_equal. by apply IHf.
Qed.

Lemma search_from_case_insensitive fuel r bol s :
  Regex.search_from fuel r bol s
  = Regex.search_from fuel r bol (List.map Regex.fold_uchar s).
Proof.
  revert bol. induction s as [|x s IH]; intros bol; simpl.
  - reflexivity.
  - f_equal; [by apply run_case_insensitive | apply IH].
Qed.

(** Two subjects that differ only in the case of their letters get
    the same verdict. *)
Lemma search_case_insensitive r (name1 name2 : string) :
  Regex.fold_subject name1 = Regex.fold_subject name2 ->
  Regex.search r name1 = Regex.search r name2.
Proof.
  unfold Regex.fold_subject. intros Hfold. unfold Regex.search.
  rewrite (search_from_case_insensitive _ r true
             (Regex.chars (list_ascii_of_string name1))).
  rewrite (search_from_case_insensitive _ r true
             (Regex.chars (list_ascii_of_string name2))).
  rewrite Hfold.
  replace (length (Regex.chars (list_ascii_of_string name1)))
    with (length (Regex.chars (list_ascii_of_string name2))); [reflexivity|].
  rewrite <- (length_map Regex.fold_uchar (Regex.chars (list_ascii_of_string name2))).
  rewrite <- Hfold. apply length_map.
Qed.

(** Nor does matching see the case of the letters of the pattern. *)
Lemma run_fold_case fuel :
  forall r bol s k k',
    (forall b t, k b t = k' b t) ->
    Regex.run fuel (Regex.fold_case r) bol s k = Regex.run fuel r bol s k'.
Proof.
  induction fuel as [|f IHf]; [reflexivity|].
  induction r as [|c| | | |r1 IH1 r2 IH2|r1 IH1 r2 IH2|r IH]; intros bol s k k' Hk.
  - apply Hk.
  - destruct s as [|x s]; [reflexivity|].
    cbn. rewrite letter_eq_lower. f_equal. apply Hk.
  - destruct s as [|x s]; [reflexivity|]. cbn. f_equal. apply Hk.
  - cbn. f_equal. apply Hk.
  - destruct s as [|x [|y s]]; cbn; [apply Hk | f_equal; apply Hk | reflexivity].
  - change (Regex.run (S f) (Regex.fold_case (Regex.Seq r1 r2)) bol s k)
      with (Regex.run (S f) (Regex.fold_case r1) bol s
              (fun b s' => Regex.run (S f) (Regex.fold_case r2) b s' k)).
    change (Regex.run (S f) (Regex.Seq r1 r2) bol s k')
      with (Regex.run (S f) r1 bol s (fun b s' => Regex.run (S f) r2 b s' k')).
    apply IH1. intros b t. by apply IH2.
  - change (Regex.run (S f) (Regex.fold_case (Regex.Alt r1 r2)) bol s k)
      with (Regex.run (S f) (Regex.fold_case r1) bol s k
            || Regex.run (S f) (Regex.fold_case r2) bol s k).
    change (Regex.run (S f) (Regex.Alt r1 r2) bol s k')
      with (Regex.run (S f) r1 bol s k' || Regex.run (S f) r2 bol s k').
    f_equal; [by apply IH1 | by apply IH2].
  - change (Regex.run (S f) (Regex.fold_case (Regex.Star r)) bol s k)
      with (k bol s
            || Regex.run (S f) (Regex.fold_case r) bol s
                 (fun b s' => Nat.ltb (length s') (length s)
                              && Regex.run f (Regex.fold_case (Regex.Star r)) b s' k)).
    change (Regex.run (S f) (Regex.Star r) bol s k')
      with (k' bol s
            || Regex.run (S f) r bol s
                 (fun b s' => Nat.ltb (length s') (length s)
                              && Regex.run f (Regex.Star r) b s' k')).
    f_equal; [apply Hk|].
    apply IH. intros b t. f_equal. by apply IHf.
Qed.

Lemma search_fold_case r (name : string) :
  Regex.search (Regex.fold_case r) name = Regex.search r name.
Proof.
  unfold Regex.search.
  generalize (S (length (Regex.chars (list_ascii_of_string name)))) as fuel.
  generalize true as bol.
  induction (Regex.chars (list_ascii_of_string name)) as [|x s IH]; intros bol fuel; simpl.
  - f_equal. by apply run_fold_case.
  - f_equal; [by apply run_fold_case | apply IH].
Qed.

(** The fuel given by [search] is enough: any two amounts above the
    length of the subject give the same answer, so no match is lost to
    the bound. *)
Lemma run_fuel_irrelevant f :
  forall f' r bol s k k',
    length s < f -> length s < f' ->
    (forall b t, length t <= length s -> k b t = k' b t) ->
    Regex.run f r bol s k = Regex.run f' r bol s k'.
Proof.
  induction f as [|f IHf]; intros f' r bol s k k' Hf Hf' Hk; [lia|].
  destruct f' as [|f']; [lia|].
  revert bol s k k' Hf Hf' Hk.
  induction r as [|c| | | |r1 IH1 r2 IH2|r1 IH1 r2 IH2|r IH]; intros bol s k k' Hf Hf' Hk.
  - by apply Hk.
  - destruct s as [|x s]; [reflexivity|]. cbn. f_equal. apply Hk. simpl. lia.
  - destruct s as [|x s]; [reflexivity|]. cbn. f_equal. apply Hk. simpl. lia.
  - cbn. f_equal. by apply Hk.
  - destruct s as [|x [|y s]]; cbn; [by apply Hk | f_equal; by apply Hk | reflexivity].
  - change (Regex.run (S f) (Regex.Seq r1 r2) bol s k)
      with (Regex.run (S f) r1 bol s (fun b s' => Regex.run (S f) r2 b s' k)).
    change (Regex.run (S f') (Regex.Seq r1 r2) bol s k')
      with (Regex.run (S f') r1 bol s (fun b s' => Regex.run (S f') r2 b s' k')).
    apply IH1; [done | done |]. intros b t Ht.
    apply IH2; [lia | lia |]. intros b' t' Ht'. apply Hk. lia.
  - change (Regex.run (S f) (Regex.Alt r1 r2) bol s k)
      with (Regex.run (S f) r1 bol s k || Regex.run (S f) r2 bol s k).
    change (Regex.run (S f') (Regex.Alt r1 r2) bol s k')
      with (Regex.run (S f') r1 bol s k' || Regex.run (S f') r2 bol s k').
    f_equal; [by apply IH1 | by apply IH2].
  - change (Regex.run (S f) (Regex.Star r) bol s k)
      with (k bol s
            || Regex.run (S f) r bol s
                 (fun b s' => Nat.ltb (length s') (length s)
                              && Regex.run f (Regex.Star r) b s' k)).
    change (Regex.run (S f') (Regex.Star r) bol s k')
      with (k' bol s
            || Regex.run (S f') r bol s
                 (fun b s' => Nat.ltb (length s') (length s)
                              && Regex.run f' (Regex.Star r) b s' k')).
    f_equal; [by apply Hk|].
    apply IH; [done | done |]. intros b t Ht.
    destruct (Nat.ltb_spec (length t) (length s)) as [Hlt|Hge]; [|reflexivity].
    simpl. apply IHf; [lia | lia |]. intros b' t' Ht'. apply Hk. lia.
Qed.

Lemma search_from_fuel_irrelevant f f' r bol s :
  length s < f -> length s < f' ->
  Regex.search_from f r bol s = Regex.search_from f' r bol s.
Proof.
  revert bol. induction s as [|x s IH]; intros bol Hf Hf'; simpl in *.
  - f_equal. by apply run_fuel_irrelevant.
  - f_equal; [by apply run_fuel_irrelevant | apply IH; lia].
Qed.

(** *** The parser and the case of the pattern *)

Lemma seq_of_fold items :
  Regex.seq_of (Regex.fold_items items) = Regex.fold_case (Regex.seq_of items).
Proof.
  unfold Regex.seq_of, Regex.fold_items.
  change Regex.Eps with (Regex.fold_case Regex.Eps) at 1.
  generalize Regex.Eps as acc.
  induction items as [|[r k] items IH]; intros acc; simpl; [done|].
  apply (IH (Regex.Seq r acc)).
Qed.

Lemma close_frame_fold f :
  Regex.close_frame (Regex.fold_frame f) = Regex.fold_case (Regex.close_frame f).
Proof.
  destruct f as [alts cur]. unfold Regex.close_frame, Regex.fold_frame. simpl.
  rewrite seq_of_fold.
  induction alts as [|r alts IH]; simpl; [done|]. by rewrite IH.
Qed.

Lemma quantify_fold st (q : Regex.re -> Regex.re) c :
  (forall r, Regex.fold_case (q r) = q (Regex.fold_case r)) ->
  Regex.quantify (Regex.fold_state st) q c = Regex.fold_result (Regex.quantify st q c).
Proof.
  intros Hq. destruct st as [outer [alts cur] esc opened].
  unfold Regex.quantify. simpl.
  destruct cur as [|[r []] rest]; simpl; try reflexivity.
  - by destruct (opened && _).
  - unfold Regex.fold_state, Regex.fold_frame. simpl. by rewrite Hq.
  - destruct (Ascii.eqb c "?"); [reflexivity|]. by destruct (Ascii.eqb c "+").
Qed.

Lemma lower_tests (c : ascii) :
  Regex.is_ascii (Regex.lower c) = Regex.is_ascii c
  /\ Regex.is_alnum (Regex.lower c) = Regex.is_alnum c
  /\ forall x, x ∈ ["\"; "("; ")"; "|"; "*"; "+"; "?"; "."; "^"; "$"; "["; "{"; "]"]%char ->
                Ascii.eqb (Regex.lower c) x = Ascii.eqb c x
                /\ Ascii.eqb x (Regex.lower c) = Ascii.eqb x c.
Proof.
  split; [|split].
  - destruct c as [[] [] [] [] [] [] [] []]; reflexivity.
  - destruct c as [[] [] [] [] [] [] [] []]; reflexivity.
  - intros x Hx. rewrite !elem_of_cons, elem_of_nil in Hx.
    repeat (destruct Hx as [->|Hx]; [destruct c as [[] [] [] [] [] [] [] []]; by split|]).
    done.
Qed.

(** The parser reads a letter in lower case as it reads the letter
    itself, up to the case of what it builds. *)
Lemma step_lower st c :
  Regex.step (Regex.fold_state st) (Regex.lower c) = Regex.fold_result (Regex.step st c).
Proof.
  destruct (lower_tests c) as (Hascii & Halnum & Hmeta).
  unfold Regex.step. rewrite Hascii, Halnum.
  rewrite !(fun x H => proj1 (Hmeta x H)) by (repeat constructor).
  destruct (negb (Regex.is_ascii c)); [reflexivity|].
  change (Regex.esc (Regex.fold_state st)) with (Regex.esc st).
  destruct (Regex.esc st).
  { destruct (Regex.is_alnum c); [reflexivity|]. by destruct st as [o [a cu] e op]. }
  destruct (Ascii.eqb c "\"); [by destruct st as [o [a cu] e op]|].
  destruct (Ascii.eqb c "("); [by destruct st as [o [a cu] e op]|].
  destruct (Ascii.eqb c ")").
  { destruct st as [[|f fs] [a cu] e op]; simpl; [reflexivity|].
    unfold Regex.fold_state, Regex.fold_frame. simpl.
    change (Regex.Frame (List.map Regex.fold_case a) (Regex.fold_items cu))
      with (Regex.fold_frame (Regex.Frame a cu)).
    by rewrite close_frame_fold. }
  destruct (Ascii.eqb c "|").
  { destruct st as [o [a cu] e op]. simpl.
    unfold Regex.fold_state, Regex.fold_frame. simpl.
    by rewrite seq_of_fold, map_app. }
  destruct (Ascii.eqb c "*") eqn:Hstar.
  { apply Ascii.eqb_eq in Hstar as ->. by apply quantify_fold. }
  destruct (Ascii.eqb c "+") eqn:Hplus.
  { apply Ascii.eqb_eq in Hplus as ->. by apply quantify_fold. }
  destruct (Ascii.eqb c "?") eqn:Hopt.
  { apply Ascii.eqb_eq in Hopt as ->. by apply quantify_fold. }
  destruct (Ascii.eqb c "."); [by destruct st as [o [a cu] e op]|].
  destruct (Ascii.eqb c "^"); [by destruct st as [o [a cu] e op]|].
  destruct (Ascii.eqb c "$"); [by destruct st as [o [a cu] e op]|].
  destruct (Ascii.eqb c "[" || Ascii.eqb c "{"); [reflexivity|].
  by destruct st as [o [a cu] e op].
Qed.

Lemma cut_short_lower st c rest :
  Regex.cut_short (Regex.fold_state st) (Regex.lower c) (List.map Regex.lower rest)
  = Regex.cut_short st c rest.
Proof.
  destruct (lower_tests c) as (_ & _ & Hmeta).
  unfold Regex.cut_short.
  rewrite !(fun x H => proj1 (Hmeta x H)) by (repeat constructor).
  change (Regex.esc (Regex.fold_state st)) with (Regex.esc st).
  change (Regex.opened (Regex.fold_state st)) with (Regex.opened st).
  assert (existsb (Ascii.eqb "]") (List.map Regex.lower rest)
          = existsb (Ascii.eqb "]") rest) as ->.
  { induction rest as [|x rest IH]; [done|].
    destruct (lower_tests x) as (_ & _ & Hx).
    cbn [existsb List.map].
    rewrite (proj2 (Hx "]"%char ltac:(repeat constructor))). by rewrite IH. }
  by destruct rest.
Qed.

Lemma steps_lower s :
  forall st,
    Regex.steps (Regex.fold_state st) (List.map Regex.lower s)
    = Regex.fold_result (Regex.steps st s).
Proof.
  induction s as [|c s IH]; intros st; simpl; [reflexivity|].
  rewrite cut_short_lower. destruct (Regex.cut_short st c s); [reflexivity|].
  rewrite step_lower. destruct (Regex.step st c) as [st'|why]; simpl; [apply IH | reflexivity].
Qed.

(** Reading a pattern in lower case gives the pattern read as written,
    with its letters in lower case; a pattern is refused or beyond the
    fragment whatever the case of its letters. *)
Lemma parse_chars_lower (pattern : list ascii) :
  Regex.parse_chars (List.map Regex.lower pattern)
  = Regex.fold_parsed (Regex.parse_chars pattern).
Proof.
  unfold Regex.parse_chars.
  change (Regex.PState [] (Regex.Frame [] []) false false)
    with (Regex.fold_state (Regex.PState [] (Regex.Frame [] []) false false)) at 1.
  rewrite steps_lower.
  destruct (Regex.steps _ pattern) as [[o t e op]|why]; simpl.
  - destruct e; [reflexivity|]. destruct o; simpl; [|reflexivity].
    by rewrite close_frame_fold.
  - by destruct why.
Qed.

(** Two patterns of the fragment that differ only in the case of
    their letters match the same subjects. *)
Lemma search_pattern_case (pattern1 pattern2 : string) r1 r2 (name : string) :
  List.map Regex.lower (list_ascii_of_string pattern1)
  = List.map Regex.lower (list_ascii_of_string pattern2) ->
  Regex.parse pattern1 = Regex.Parsed r1 ->
  Regex.parse pattern2 = Regex.Parsed r2 ->
  Regex.search r1 name = Regex.search r2 name.
Proof.
  unfold Regex.parse. intros Hsame H1 H2.
  pose proof (parse_chars_lower (list_ascii_of_string pattern1)) as L1.
  pose proof (parse_chars_lower (list_ascii_of_string pattern2)) as L2.
  rewrite H1 in L1. rewrite H2 in L2. rewrite Hsame, L2 in L1.
  injection L1 as Hfold.
  rewrite <- (search_fold_case r1), <- (search_fold_case r2). by rewrite Hfold.
Qed.

(** A dot stands for any one character but the line feed, whatever
    the number of bytes of the character. *)
Lemma dot_is_a_wildcard (c : ascii) :
  Regex.is_continuation c = false ->
  c <> Regex.newline ->
  exists r, Regex.parse "a.c" = Regex.Parsed r
            /\ Regex.search r (String "a" (String c "c")) = true.
Proof.
  intros Hlead Hc. eexists. split; [reflexivity|].
  assert (Regex.chars ["a"%char; c; "c"%char] = [["a"%char]; [c]; ["c"%char]]) as Hchars.
  { change (Regex.chars ["a"%char; c; "c"%char])
      with (if Regex.is_continuation c then [["a"%char; c]; ["c"%char]]
            else [["a"%char]; [c]; ["c"%char]]).
    by rewrite Hlead. }
  assert (Regex.is_newline [c] = false) as Hnl.
  { apply bool_decide_eq_false_2. intros [= ->]. done. }
  unfold Regex.search.
  change (list_ascii_of_string (String "a" (String c "c"))) with ["a"%char; c; "c"%char].
  rewrite Hchars. cbn. rewrite Hnl. reflexivity.
Qed.

(** ** Search by pattern *)

Lemma filter_Permutation_length {A} (f : A -> bool) (l l' : list A) :
  l ≡ₚ l' -> length (List.filter f l) = length (List.filter f l').
Proof.
  induction 1 as [|x l l' _ IH|x y l|l l' l'' _ IH1 _ IH2]; simpl.
  - done.
  - destruct (f x); simpl; by rewrite IH.
  - by destruct (f x), (f y).
  - by rewrite IH1.
Qed.

(** In any environment the search either fails or answers at most
    [limit] records. *)
Lemma find_regex_cases pattern limit w :
  (exists e, fst (find_regex pattern limit w) = Rejected e)
  \/ (exists found, length found <= limit
                    /\ fst (find_regex pattern limit w)
                       = Fulfilled (hydrate (events w) true <$> found)).
Proof.
  unfold find_regex.
  destruct (round_trip_cases
              (fun w => match compile_pattern w pattern with
                        | None => (Rejected RegexError, w)
                        | Some m => (Fulfilled (take limit (List.filter (fun u => m (username u))
                                                              (scan w (users w)))), w)
                        end) (record_op OpFind w)) as [[es ->]|(w0 & -> & Hev & _)];
    simpl; [eauto|].
  destruct (compile_pattern w0 pattern) as [m|]; [|eauto].
  match goal with
  | |- context [populate_query ?ids ?k w0] =>
      destruct (populate_query_cases ids k w0) as [?|H]; [eauto|]
  end.
  right. eexists. split; [|rewrite H, Hev; reflexivity].
  rewrite length_take. lia.
Qed.

(** [findMatchingUsers] never rejects and never answers more than ten
    records, whatever the pattern and the state of the store. *)
Lemma findMatchingUsers_at_most_10 searchString w :
  match fst (findMatchingUsers searchString w) with
  | Fulfilled (Some l) => length l <= 10
  | Fulfilled None => True
  | Rejected _ => False
  end.
Proof.
  unfold findMatchingUsers, async, try_catch, bind, call.
  destruct (find_regex_cases searchString 10 w) as [[e He]|(found & Hlen & He)];
    destruct (find_regex searchString 10 w) as [[l|e'] w1]; simpl in *;
    try done; try discriminate He.
  injection He as ->. by rewrite length_fmap.
Qed.

(** What [findMatchingUsers] answers on a reachable store for a
    pattern that the engine accepts. *)
Lemma findMatchingUsers_accepted searchString m w :
  env w = [] ->
  compile_pattern w searchString = Some m ->
  fst (findMatchingUsers searchString w)
  = Fulfilled (Some (hydrate (events w) true
                       <$> take 10 (List.filter (fun u => m (username u))
                                      (scan w (users w))))).
Proof.
  intros Henv Hm.
  unfold findMatchingUsers, async, try_catch, bind, call, find_regex.
  rewrite round_trip_quiet by done.
  change (compile_pattern (record_op OpFind w) searchString)
    with (compile_pattern w searchString).
  rewrite Hm. rewrite populate_query_quiet by done. reflexivity.
Qed.

(** C4. On a reachable store, a search string that the engine accepts
    selects users by their username and by nothing else: the answer
    holds at most ten records (ten, or all the matching users when
    they are fewer), every record in it is a user whose username
    matches, and when at most ten users match all of them are in it,
    in whatever order the store scans the collection.  The string is
    the pattern itself and case is ignored on both sides: for a
    pattern of the modelled fragment the users selected are those
    whose username contains a match of the pattern, two usernames
    that differ only in the case of their letters are selected
    together, and two patterns that differ only in the case of their
    letters select the same users.  So ["bob"] selects [bob], [bobby],
    [Bob123] and [BOB]; ["BOB"] selects [bob]; and in ["a.c"] the dot
    stands for any character, of one byte or of several, so [abc],
    [axc] and [aéc] are selected and [ac] is not. *)
Theorem findMatchingUsers_pattern_search
    (searchString : string) (m : string -> bool) (w : World) :
  env w = [] ->
  fair_scan w ->
  compile_pattern w searchString = Some m ->
  exists l,
    fst (findMatchingUsers searchString w) = Fulfilled (Some l)
    /\ length l <= 10
    /\ length l = min 10 (length (List.filter (fun u => m (username u)) (users w)))
    /\ (forall d, d ∈ l ->
          exists u, u ∈ users w /\ d = hydrate (events w) true u /\ m (username u) = true)
    /\ (length (List.filter (fun u => m (username u)) (users w)) <= 10 ->
        forall u, u ∈ users w -> m (username u) = true ->
                  hydrate (events w) true u ∈ l)
    /\ (forall r, Regex.parse searchString = Regex.Parsed r ->
          (forall name, m name = Regex.search r name)
          /\ (forall name1 name2,
                Regex.fold_subject name1 = Regex.fold_subject name2 -> m name1 = m name2)
          /\ (forall other r' name,
                List.map Regex.lower (list_ascii_of_string other)
                = List.map Regex.lower (list_ascii_of_string searchString) ->
                Regex.parse other = Regex.Parsed r' ->
                Regex.search r' name = m name))
    /\ (searchString = "bob" ->
        m "bob" = true /\ m "bobby" = true /\ m "Bob123" = true /\ m "BOB" = true
        /\ m "alice" = false)
    /\ (searchString = "BOB" -> m "bob" = true /\ m "Bobby" = true)
    /\ (searchString = "a.c" ->
        m "abc" = true /\ m "axc" = true /\ m "aéc" = true /\ m "ac" = false).
Proof.
  intros Henv Hscan Hm.
  rewrite (findMatchingUsers_accepted searchString m w Henv Hm).
  eexists. split; [reflexivity|].
  assert (length (List.filter (fun u => m (username u)) (scan w (users w)))
          = length (List.filter (fun u => m (username u)) (users w))) as Hcount
    by apply filter_Permutation_length, Hscan.
  split; [rewrite length_fmap, length_take; lia|].
  split; [rewrite length_fmap, length_take, Hcount; lia|].
  split.
  { intros d Hd. apply list_elem_of_fmap in Hd as (u & -> & Hu).
    apply elem_of_take in Hu as (i & Hi & _).
    apply list_elem_of_lookup_2, list_elem_of_In, filter_In in Hi as [Hin Hmu].
    exists u. split; [|done].
    rewrite <- (Hscan (users w)). by apply list_elem_of_In. }
  split.
  { intros Hfew u Hu Hmu. apply list_elem_of_fmap_2.
    rewrite take_ge by lia.
    apply list_elem_of_In, filter_In. split; [|done].
    apply list_elem_of_In. by rewrite (Hscan (users w)). }
  assert (forall r, Regex.parse searchString = Regex.Parsed r -> m = Regex.search r)
    as Hfragment.
  { intros r Hr. unfold compile_pattern in Hm. rewrite Hr in Hm. by injection Hm as <-. }
  split.
  { intros r Hr. rewrite (Hfragment r Hr). split; [done|]. split.
    - intros name1 name2. apply search_case_insensitive.
    - intros other r' name Hsame Hother.
      by apply (search_pattern_case other searchString). }
  split; [|split].
  - intros ->. rewrite (Hfragment _ eq_refl). repeat split; vm_compute; reflexivity.
  - intros ->. rewrite (Hfragment _ eq_refl). repeat split; vm_compute; reflexivity.
  - intros ->. rewrite (Hfragment _ eq_refl). repeat split; vm_compute; reflexivity.
Qed.

Lemma sample_fair_scan : fair_scan sample.
Proof. intros us. reflexivity. Defined.

Lemma findMatchingUsers_pattern_search_witness :
  exists l,
    fst (findMatchingUsers "a.c" sample) = Fulfilled (Some l)
    /\ length l <= 10
    /\ length l
       = min 10 (length (List.filter (fun u => Regex.search a_dot_c (username u))
                           (users sample)))
    /\ (forall d, d ∈ l ->
          exists u, u ∈ users sample /\ d = hydrate (events sample) true u
                    /\ Regex.search a_dot_c (username u) = true)
    /\ (length (List.filter (fun u => Regex.search a_dot_c (username u)) (users sample))
        <= 10 ->
        forall u, u ∈ users sample -> Regex.search a_dot_c (username u) = true ->
                  hydrate (events sample) true u ∈ l)
    /\ (forall r, Regex.parse "a.c" = Regex.Parsed r ->
          (forall name, Regex.search a_dot_c name = Regex.search r name)
          /\ (forall name1 name2,
                Regex.fold_subject name1 = Regex.fold_subject name2 ->
                Regex.search a_dot_c name1 = Regex.search a_dot_c name2)
          /\ (forall other r' name,
                List.map Regex.lower (list_ascii_of_string other)
                = List.map Regex.lower (list_ascii_of_string "a.c") ->
                Regex.parse other = Regex.Parsed r' ->
                Regex.search r' name = Regex.search a_dot_c name))
    /\ ("a.c" = "bob" ->
        Regex.search a_dot_c "bob" = true /\ Regex.search a_dot_c "bobby" = true
        /\ Regex.search a_dot_c "Bob123" = true /\ Regex.search a_dot_c "BOB" = true
        /\ Regex.search a_dot_c "alice" = false)
    /\ ("a.c" = "BOB" ->
        Regex.search a_dot_c "bob" = true /\ Regex.search a_dot_c "Bobby" = true)
    /\ ("a.c" = "a.c" ->
        Regex.search a_dot_c "abc" = true /\ Regex.search a_dot_c "axc" = true
        /\ Regex.search a_dot_c "aéc" = true /\ Regex.search a_dot_c "ac" = false).
Proof.
  apply (findMatchingUsers_pattern_search "a.c" (Regex.search a_dot_c) sample).
  - reflexivity.
  - exact sample_fair_scan.
  - reflexivity.
Defined.

(** The examples of the specification on the sample store, whose scan
    follows the order of insertion. *)
Example findMatchingUsers_bob :
  usernames_of (fst (findMatchingUsers "bob" sample))
  = Some [Some (VStr "bob"); Some (VStr "bobby"); Some (VStr "Bob123")].
Proof. vm_compute. reflexivity. Qed.

Example findMatchingUsers_a_dot_c :
  usernames_of (fst (findMatchingUsers "a.c" sample))
  = Some [Some (VStr "abc"); Some (VStr "axc")].
Proof. vm_compute. reflexivity. Qed.

(** ** The store stays well formed *)

Lemma delete_one_elem name x us : x ∈ delete_one name us -> x ∈ us.
Proof.
  induction us as [|y us IH]; simpl; [done|].
  destruct (String.eqb (username y) name); [by right|].
  intros [->|Hx]%elem_of_cons; [left | right; by apply IH].
Qed.

Lemma delete_one_NoDup {B} (f : User -> B) name us :
  NoDup (f <$> us) -> NoDup (f <$> delete_one name us).
Proof.
  induction us as [|y us IH]; simpl; [done|].
  intros [Hy Hnd]%NoDup_cons.
  destruct (String.eqb (username y) name); [done|].
  simpl. apply NoDup_cons. split; [|by apply IH].
  intros (x & Hfx & Hx)%list_elem_of_fmap. apply Hy. rewrite Hfx.
  apply list_elem_of_fmap_2. by apply (delete_one_elem name).
Qed.

Lemma delete_one_Forall (P : User -> Prop) name us :
  Forall P us -> Forall P (delete_one name us).
Proof.
  rewrite !Forall_forall. intros H x Hx. apply H. by apply (delete_one_elem name).
Qed.

Lemma wf_delete_one name w : wf w -> wf (with_users (delete_one name (users w)) w).
Proof.
  intros [Hn Hi Hf Hv]. split; simpl.
  - by apply delete_one_NoDup.
  - by apply delete_one_NoDup.
  - by apply delete_one_Forall.
  - by apply delete_one_Forall.
Qed.

Lemma wf_with_env es w : wf w -> wf (with_env es w).
Proof. intros [Hn Hi Hf Hv]. by split. Qed.

Lemma wf_record_op op w : wf w -> wf (record_op op w).
Proof. intros [Hn Hi Hf Hv]. by split. Qed.

Lemma keeps_round_trip {A} (q : World -> Outcome A * World) :
  keeps q -> keeps (round_trip q).
Proof.
  intros Hq w Hwf. unfold round_trip.
  destruct (env w) as [|[| |other] es].
  - by apply Hq.
  - by apply Hq, wf_with_env.
  - by apply wf_with_env.
  - by apply Hq, wf_with_env, wf_delete_one.
Qed.

Lemma validate_valid d u : validate d = Some u -> valid_user u = true.
Proof.
  intros (_ & _ & Hf & _ & Hl & _ & Hn & _ & He & _)%validate_inv.
  unfold valid_user.
  apply String.eqb_neq in Hf, Hl, Hn, He. by rewrite Hf, Hl, Hn, He.
Qed.

Lemma keeps_insert_user d u :
  validate d = Some u ->
  forall w, doc_id d < next_id w -> wf w -> wf (snd (insert_user d u w)).
Proof.
  intros Hv w Hnew [Hn Hi Hf Hvalid]. unfold insert_user.
  destruct (existsb _ (users w)) eqn:Hclash; [by split|].
  assert (forall x, x ∈ users w -> _id x <> _id u /\ username x <> username u) as Hfree.
  { intros x Hx. apply not_true_iff_false in Hclash.
    split; intros Heq; apply Hclash, existsb_exists; exists x;
      (split; [by apply list_elem_of_In|]); apply orb_true_iff.
    - left. by apply Nat.eqb_eq.
    - right. by apply String.eqb_eq. }
  split; simpl.
  - rewrite fmap_app. apply NoDup_app. split; [done|]. split.
    + intros n (x & -> & Hx)%list_elem_of_fmap Hin. simpl in Hin.
      apply list_elem_of_singleton in Hin. destruct (Hfree x Hx) as [Hid Hnm]. done.
    + apply NoDup_singleton.
  - rewrite fmap_app. apply NoDup_app. split; [done|]. split.
    + intros n (x & -> & Hx)%list_elem_of_fmap Hin. simpl in Hin.
      apply list_elem_of_singleton in Hin. destruct (Hfree x Hx) as [Hid Hnm]. done.
    + apply NoDup_singleton.
  - apply Forall_app. split; [done|]. apply Forall_singleton.
    apply validate_inv in Hv as (_ & _ & _ & _ & _ & _ & _ & _ & _ & _ & ->). done.
  - apply Forall_app. split; [done|]. apply Forall_singleton. by apply (validate_valid d).
Qed.

Lemma replace_user_ids u us : _id <$> replace_user u us = _id <$> us.
Proof.
  unfold replace_user. induction us as [|x us IH]; simpl; [done|].
  f_equal; [by destruct (Nat.eqb_spec (_id x) (_id u)) | apply IH].
Qed.

Lemma replace_user_elem u us y :
  y ∈ replace_user u us ->
  (y = u /\ exists z, z ∈ us /\ _id z = _id u) \/ (y ∈ us /\ _id y <> _id u).
Proof.
  unfold replace_user. intros (x & -> & Hx)%list_elem_of_fmap.
  destruct (Nat.eqb_spec (_id x) (_id u)); [left | by right].
  split; [done | by exists x].
Qed.

Lemma replace_user_names u us :
  NoDup (username <$> us) -> NoDup (_id <$> us) ->
  (forall x, x ∈ us -> username x = username u -> _id x = _id u) ->
  NoDup (username <$> replace_user u us).
Proof.
  intros Hn Hi Hown.
  induction us as [|x us IH]; [done|].
  simpl in Hn, Hi. apply NoDup_cons in Hn as [Hx Hn]. apply NoDup_cons in Hi as [Hxi Hi].
  change (replace_user u (x :: us))
    with ((if Nat.eqb (_id x) (_id u) then u else x) :: replace_user u us).
  rewrite fmap_cons. apply NoDup_cons. split.
  - intros (y & Hy & Hin)%list_elem_of_fmap.
    apply replace_user_elem in Hin as [[-> (z & Hz & Hzid)]|[Hin Hne]];
      destruct (Nat.eqb_spec (_id x) (_id u)) as [Heq|Hne'].
    + apply Hxi. rewrite Heq, <- Hzid. by apply list_elem_of_fmap_2.
    + apply Hne', Hown; [left | done].
    + apply Hne, Hown; [by right | done].
    + apply Hx. rewrite Hy. by apply list_elem_of_fmap_2.
  - apply IH; [done | done |]. intros y Hy. apply Hown. by right.
Qed.

Lemma keeps_update_user d u :
  validate d = Some u -> keeps (update_user d u).
Proof.
  intros Hv w Hwf. unfold update_user.
  destruct (negb _); [done|].
  destruct (existsb _ (users w)) eqn:Hclash; [done|].
  destruct Hwf as [Hn Hi Hf Hvalid].
  assert (forall x, x ∈ users w -> username x = username u -> _id x = _id u) as Hown.
  { intros x Hx Hname. destruct (Nat.eqb_spec (_id x) (_id u)) as [|Hne]; [done|].
    exfalso. apply not_true_iff_false in Hclash. apply Hclash, existsb_exists.
    exists x. split; [by apply list_elem_of_In|].
    apply andb_true_intro. split; [by apply negb_true_iff, Nat.eqb_neq | by apply String.eqb_eq]. }
  split; simpl.
  - by apply replace_user_names.
  - by rewrite replace_user_ids.
  - rewrite Forall_forall in *. intros y Hy.
    apply replace_user_elem in Hy as [[-> (z & Hz & <-)]|[Hy _]]; by apply Hf.
  - rewrite Forall_forall in *. intros y Hy.
    apply replace_user_elem in Hy as [[-> _]|[Hy _]];
      [by apply (validate_valid d) | by apply Hvalid].
Qed.

Lemma keeps_save d w :
  (isNew d = true -> doc_id d < next_id w) -> wf w -> wf (snd (save d w)).
Proof.
  intros Hnew Hwf. unfold save.
  destruct (validate d) as [u|] eqn:Hv; [|by apply wf_record_op].
  destruct (isNew d).
  - unfold round_trip. simpl.
    destruct (env w) as [|[| |other] es]; simpl.
    + apply (keeps_insert_user d u Hv); [by apply Hnew | by apply wf_record_op].
    + apply (keeps_insert_user d u Hv); [by apply Hnew |].
      by apply wf_with_env, wf_record_op.
    + by apply wf_with_env, wf_record_op.
    + apply (keeps_insert_user d u Hv); [by apply Hnew |].
      apply wf_with_env. apply (wf_delete_one other (record_op OpSave w)).
      by apply wf_record_op.
  - apply keeps_round_trip; [by apply keeps_update_user | by apply wf_record_op].
Qed.

(** The combinators of the monad pass the property along. *)
Lemma keeps_ret {A} (a : A) : keeps (ret a).
Proof. by intros w Hwf. Qed.

Lemma keeps_throw {A} e : keeps (@throw A e).
Proof. by intros w Hwf. Qed.

Lemma keeps_bind {A B} (m : JS A) (k : A -> JS B) :
  keeps m -> (forall a, keeps (k a)) -> keeps (bind m k).
Proof.
  intros Hm Hk w Hwf. unfold bind. specialize (Hm w Hwf).
  destruct (m w) as [[a|e] w1]; [by apply Hk | done].
Qed.

Lemma keeps_try_catch {A} (body : JS A) (handler : Error -> JS A) :
  keeps body -> (forall e, keeps (handler e)) -> keeps (try_catch body handler).
Proof.
  intros Hb Hh w Hwf. unfold try_catch. specialize (Hb w Hwf).
  destruct (body w) as [[a|e] w1]; [done | by apply Hh].
Qed.

Lemma keeps_call {A} (f : World -> Outcome A * World) : keeps f -> keeps (call f).
Proof.
  intros Hf w Hwf. unfold call. specialize (Hf w Hwf). by destruct (f w).
Qed.

Lemma keeps_await {A} (p : Outcome A) : keeps (await p).
Proof. destruct p; [apply keeps_ret | apply keeps_throw]. Qed.

Lemma keeps_async {A} (body : JS (Returned A)) : keeps body -> keeps (async body).
Proof.
  intros Hb w Hwf. unfold async. specialize (Hb w Hwf).
  by destruct (body w) as [[[a|p]|e] w1].
Qed.

Lemma keeps_populate_query {A} ids (k : list Event -> A) : keeps (populate_query ids k).
Proof.
  intros w Hwf. unfold populate_query. destruct ids; [done|].
  apply keeps_round_trip; [by intros w' Hw' | done].
Qed.

Lemma keeps_findOne_joined {A} name (k : list Event -> User -> A) :
  keeps (findOne_joined name k).
Proof.
  intros w Hwf. unfold findOne_joined.
  pose proof (keeps_round_trip (fun w => (Fulfilled (find_user name (users w)), w))
                (fun w' Hw' => Hw') (record_op OpFindOne w) (wf_record_op _ _ Hwf)) as Hw1.
  destruct (round_trip _ (record_op OpFindOne w)) as [[[u|]|e] w1]; simpl in *; try done.
  by apply keeps_populate_query.
Qed.

Lemma keeps_findOne_populate strip name : keeps (findOne_populate strip name).
Proof. apply keeps_findOne_joined. Qed.

Lemma keeps_find_regex pattern limit : keeps (find_regex pattern limit).
Proof.
  intros w Hwf. unfold find_regex.
  match goal with
  | |- context [round_trip ?q (record_op OpFind w)] =>
      assert (keeps q) as Hq by (intros w' Hw'; by destruct (compile_pattern w' pattern));
      pose proof (keeps_round_trip q Hq (record_op OpFind w) (wf_record_op _ _ Hwf)) as Hw1;
      destruct (round_trip q (record_op OpFind w)) as [[found|e] w1]
  end; simpl in *; [|done].
  by apply keeps_populate_query.
Qed.

Lemma keeps_getUser name : keeps (getUser name).
Proof.
  apply keeps_async, keeps_try_catch; [|intros; apply keeps_ret].
  apply keeps_bind; [apply keeps_call, keeps_findOne_populate|]. intros p.
  apply keeps_bind; [apply keeps_await|]. intros d. apply keeps_ret.
Qed.

Lemma keeps_for_of updates :
  forall o, (forall d, o = Some d -> isNew d = false) ->
  forall w, wf w ->
    wf (snd (for_of updates o w))
    /\ (forall o', fst (for_of updates o w) = Normal o' ->
          forall d, o' = Some d -> isNew d = false).
Proof.
  induction updates as [|[field v] rest IH]; intros o Hold w Hwf; simpl.
  - split; [done|]. intros o' [= <-]. done.
  - unfold bind. destruct o as [d|]; simpl.
    + apply IH; [|done]. intros d' [= <-]. rewrite isNew_assign. by apply Hold.
    + split; [done | discriminate].
Qed.

(** Every repository function leaves a well-formed store well
    formed, whatever the environment does. *)
Theorem repository_keeps_wf :
  (forall obj, keeps (addUser obj))
  /\ (forall f l n e, keeps (addBasicUser f l n e))
  /\ (forall name field v, keeps (updateUser name field v))
  /\ (forall name updates, keeps (multiUpdateUser name updates))
  /\ (forall name, keeps (deleteUser name))
  /\ (forall name, keeps (getUser name))
  /\ (forall name, keeps (hasUser name))
  /\ (forall name, keeps (getCreatedEvents name))
  /\ (forall s, keeps (findMatchingUsers s)).
Proof.
  assert (forall obj w, wf w ->
            match User_new obj w with
            | (Normal d, w1) => wf w1 /\ doc_id d < next_id w1
            | (Thrown _, w1) => wf w1
            end) as Hnew.
  { intros obj w [Hn Hi Hf Hv].
    assert (forall fields d, doc_id (fold_left
              (fun d field => match obj !! field with
                              | Some v => assign d field v
                              | None => d
                              end) fields d) = doc_id d) as Hid.
    { induction fields as [|field fields IH]; intros d; simpl; [done|].
      rewrite IH. destruct (obj !! field); [apply doc_id_assign | done]. }
    unfold User_new. cbv beta iota zeta. split.
    - split; try done. simpl.
      rewrite Forall_forall in *. intros x Hx. specialize (Hf x Hx). lia.
    - rewrite Hid. simpl. lia. }
  assert (forall name updates, keeps (multiUpdateUser name updates)) as Hmulti.
  { intros name updates w Hwf.
    unfold multiUpdateUser, async, try_catch, bind at 1 2, call at 1.
    pose proof (keeps_findOne_populate false name w Hwf) as Hw1.
    assert (forall d, fst (findOne_populate false name w) = Fulfilled (Some d) ->
                      isNew d = false) as Hold.
    { intros d Hd. unfold findOne_populate in Hd.
      destruct (findOne_joined_cases name (fun evs u => hydrate evs false u) w)
        as [[e He]|[He|[u He]]]; rewrite He in Hd; try discriminate Hd.
      by injection Hd as <-. }
    destruct (findOne_populate false name w) as [[o|e] w1]; simpl in *; [|done].
    unfold bind at 1.
    destruct (keeps_for_of updates o (fun d Hd => Hold d (f_equal _ Hd)) w1 Hw1)
      as [Hw2 Hold2].
    destruct (for_of updates o w1) as [[o'|e] w2]; simpl in *; [|done].
    unfold bind at 1, invoke_save.
    destruct o' as [d|]; simpl; [|done].
    destruct (own d !! "save"); simpl; [done|].
    unfold call, bind.
    pose proof (keeps_save d w2) as Hsave.
    destruct (save d w2) as [[d'|e] w3]; simpl in *; apply Hsave; try done;
      intros Hnewd; by rewrite (Hold2 _ eq_refl d eq_refl) in Hnewd. }
  repeat apply conj.
  - intros obj w Hwf. unfold addUser, async, try_catch, bind, call.
    specialize (Hnew obj w Hwf).
    destruct (User_new obj w) as [[d|e] w1]; [|done]. destruct Hnew as [Hw1 Hid].
    pose proof (keeps_save d w1 (fun _ => Hid) Hw1) as Hsave.
    by destruct (save d w1) as [[d'|e] w2].
  - intros f l n e w Hwf. unfold addBasicUser, async, try_catch, bind, call.
    specialize (Hnew (<["firstname" := f]> (<["lastname" := l]>
                     (<["username" := n]> (<["email" := e]> ∅)))) w Hwf).
    destruct (User_new _ w) as [[d|e'] w1]; [|done]. destruct Hnew as [Hw1 Hid].
    pose proof (keeps_save d w1 (fun _ => Hid) Hw1) as Hsave.
    by destruct (save d w1) as [[d'|e'] w2].
  - intros name field v w Hwf. rewrite updateUser_as_loop. by apply Hmulti.
  - exact Hmulti.
  - intros name. apply keeps_async, keeps_try_catch; [|intros; apply keeps_ret].
    apply keeps_bind; [apply keeps_call|].
    + intros w Hwf. unfold deleteOne.
      apply keeps_round_trip; [intros w'; apply wf_delete_one | by apply wf_record_op].
    + intros p. apply keeps_bind; [apply keeps_await | intros; apply keeps_ret].
  - apply keeps_getUser.
  - intros name. apply keeps_async.
    apply keeps_bind; [apply keeps_call, keeps_getUser|]. intros p.
    apply keeps_bind; [apply keeps_await | intros; apply keeps_ret].
  - intros name. apply keeps_async, keeps_try_catch; [|intros; apply keeps_ret].
    apply keeps_bind; [apply keeps_call, keeps_getUser|]. intros p.
    apply keeps_bind; [apply keeps_await|]. intros user.
    apply keeps_bind; [destruct user; [apply keeps_ret | apply keeps_throw]|]. intros i.
    apply keeps_bind; [apply keeps_call|].
    + intros w Hwf. unfold Event_find.
      apply keeps_round_trip; [by intros w' | by apply wf_record_op].
    + intros q. apply keeps_bind; [apply keeps_await | intros; apply keeps_ret].
  - intros s. apply keeps_async, keeps_try_catch; [|intros; apply keeps_ret].
    apply keeps_bind; [apply keeps_call|].
    + apply keeps_find_regex.
    + intros p. apply keeps_bind; [apply keeps_await | intros; apply keeps_ret].
Qed.

(** * Further properties of the repository *)

(** ** Promises that are never rejected *)

Lemma returns_plain_ret {A} (a : A) : returns_plain (ret (Plain a)).
Proof. by intros w. Qed.

Lemma returns_plain_bind {A B} (m : JS A) (k : A -> JS (Returned B)) :
  (forall a, returns_plain (k a)) -> returns_plain (bind m k).
Proof.
  intros Hk w. unfold bind. destruct (m w) as [[a|e] w1]; [apply Hk | done].
Qed.

(** A [try] whose block returns plain values and whose handler returns
    a plain value makes an [async] function that cannot reject. *)
Lemma settles_try {A} (body : JS (Returned A)) (fallback : A) :
  returns_plain body ->
  settles (async (try_catch body (fun _ => ret (Plain fallback)))).
Proof.
  intros Hb w. specialize (Hb w). unfold async, try_catch.
  destruct (body w) as [[[a|p]|e] w1]; simpl in *; [by eexists | done | by eexists].
Qed.

(** X1. Every repository function other than [addUser] answers with a
    fulfilled promise, in every state of the store and whatever the
    environment does (outage, concurrent deletion, refused pattern,
    failed validation): failures come back as the sentinel, never as a
    rejection. *)
Theorem repository_never_rejects :
  (forall f l n e, settles (addBasicUser f l n e))
  /\ (forall name field v, settles (updateUser name field v))
  /\ (forall name updates, settles (multiUpdateUser name updates))
  /\ (forall name, settles (deleteUser name))
  /\ (forall name, settles (getUser name))
  /\ (forall name, settles (getRawUser name))
  /\ (forall name, settles (getUserObj name))
  /\ (forall name, settles (hasUser name))
  /\ (forall name, settles (getParticipatingIn name))
  /\ (forall name, settles (getCreatedEvents name))
  /\ (forall s, settles (findMatchingUsers s)).
Proof.
  assert (forall name, settles (getUser name)) as Hget.
  { intros name. apply settles_try.
    repeat (apply returns_plain_bind; intros ?). apply returns_plain_ret. }
  assert (forall A (body : JS (Returned A)) (fallback : A),
            returns_plain body ->
            forall w, exists r,
              fst (async (try_catch body (fun _ => ret (Plain fallback))) w) = Fulfilled r)
    as Htry by (intros A body fallback Hb; by apply settles_try).
  repeat apply conj.
  - (* addBasicUser: the constructor runs before the [try] and does not throw *)
    intros f l n e w. unfold addBasicUser, async, bind at 1.
    destruct (User_new _ w) as [c w1] eqn:Hnew.
    unfold User_new in Hnew. injection Hnew as <- <-.
    apply (Htry _ _ None).
    repeat (apply returns_plain_bind; intros ?). apply returns_plain_ret.
  - intros name field v. apply settles_try.
    repeat (apply returns_plain_bind; intros ?). apply returns_plain_ret.
  - intros name updates. apply settles_try.
    repeat (apply returns_plain_bind; intros ?). apply returns_plain_ret.
  - intros name. apply settles_try.
    repeat (apply returns_plain_bind; intros ?). apply returns_plain_ret.
  - exact Hget.
  - intros name. apply settles_try.
    repeat (apply returns_plain_bind; intros ?). apply returns_plain_ret.
  - intros name. apply settles_try.
    repeat (apply returns_plain_bind; intros ?). apply returns_plain_ret.
  - (* hasUser: no [try], but what it awaits cannot reject *)
    intros name w. unfold hasUser, async, bind, call.
    destruct (Hget name w) as [r Hr].
    destruct (getUser name w) as [p w1]. simpl in Hr. subst p. simpl. by eexists.
  - intros name. apply settles_try.
    repeat (apply returns_plain_bind; intros ?). apply returns_plain_ret.
  - intros name. apply settles_try.
    repeat (apply returns_plain_bind; intros ?). apply returns_plain_ret.
  - intros s. apply settles_try.
    repeat (apply returns_plain_bind; intros ?). apply returns_plain_ret.
Qed.

(** ** Creation followed by lookup *)

Lemma User_new_basic f l n e w :
  exists d,
    User_new (basic_object (VStr f) (VStr l) (VStr n) (VStr e)) w
    = (Normal d, with_next_id (S (next_id w)) w)
    /\ doc_id d = next_id w /\ isNew d = true /\ own d = ∅ /\ castErrors d = ∅
    /\ paths d !! "firstname" = Some (VStr f)
    /\ paths d !! "lastname" = Some (VStr l)
    /\ paths d !! "username" = Some (VStr n)
    /\ paths d !! "email" = Some (VStr e)
    /\ refs_of d = Some (Some []).
Proof.
  eexists. split; [reflexivity|]. repeat split; vm_compute; reflexivity.
Qed.

Lemma find_user_app_new name us u :
  find_user name us = None -> username u = name -> find_user name (us ++ [u]) = Some u.
Proof.
  intros Hnone Hname. unfold find_user in *.
  induction us as [|x us IH]; simpl in *.
  - by rewrite Hname, String.eqb_refl.
  - destruct (String.eqb (username x) name); [done | by apply IH].
Qed.

Lemma find_user_app_other name us u :
  username u <> name -> find_user name (us ++ [u]) = find_user name us.
Proof.
  intros Hname. unfold find_user.
  induction us as [|x us IH]; simpl.
  - by destruct (String.eqb_spec (username u) name).
  - destruct (String.eqb (username x) name); [done | apply IH].
Qed.

Lemma existsb_fresh (name : string) (w : World) :
  wf w -> find_user name (users w) = None ->
  existsb (fun x => Nat.eqb (_id x) (next_id w) || String.eqb (username x) name) (users w)
  = false.
Proof.
  intros Hwf Hnone. apply not_true_is_false. intros H.
  apply existsb_exists in H as (x & Hin & Hx). apply list_elem_of_In in Hin.
  apply orb_true_iff in Hx as [Hx|Hx].
  - apply Nat.eqb_eq in Hx. pose proof (wf_fresh w Hwf) as Hall.
    rewrite Forall_forall in Hall. specialize (Hall x Hin). lia.
  - apply String.eqb_eq in Hx. apply find_user_None in Hnone. apply Hnone.
    rewrite <- Hx. by apply list_elem_of_fmap_2.
Qed.

(** [hasUser] in terms of [getUser]. *)
Lemma hasUser_spec name w :
  exists b, fst (hasUser name w) = Fulfilled b
            /\ b = match fst (getUser name w) with
                   | Fulfilled (Some _) => true
                   | _ => false
                   end.
Proof.
  destruct (getUser_settles name w) as [r Hr].
  unfold hasUser, async, bind, call.
  destruct (getUser name w) as [p w1]. simpl in *. subst p. simpl.
  eexists. split; [reflexivity|]. by destruct r.
Qed.

(** What [addBasicUser] does on a reachable store with four non-empty
    strings and a free username. *)
Lemma addBasicUser_fresh f l n e w :
  env w = [] -> wf w ->
  f <> "" -> l <> "" -> n <> "" -> e <> "" ->
  find_user n (users w) = None ->
  exists d,
    addBasicUser (VStr f) (VStr l) (VStr n) (VStr e) w
    = (Fulfilled (Some d),
       with_users (users w ++ [ {| _id := next_id w; firstname := f; lastname := l;
                                   username := n; email := e;
                                   participatingIn := Some [] |} ])
         (record_op OpSave (with_next_id (S (next_id w)) w)))
    /\ doc_id d = next_id w /\ isNew d = false.
Proof.
  intros Henv Hwf Hf Hl Hn He Hfree.
  destruct (User_new_basic f l n e w)
    as (d & Hnew & Hid & Hisnew & Hown & Hcast & Hpf & Hpl & Hpn & Hpe & Hrefs).
  pose proof (validate_intro d f l n e (Some []) Hcast Hpf Hf Hpl Hl Hpn Hn Hpe He Hrefs)
    as Hv.
  rewrite Hid in Hv.
  exists (saved d).
  unfold addBasicUser, async, try_catch, bind, call.
  change (<["firstname" := VStr f]> (<["lastname" := VStr l]>
          (<["username" := VStr n]> (<["email" := VStr e]> ∅))))
    with (basic_object (VStr f) (VStr l) (VStr n) (VStr e)).
  rewrite Hnew. unfold save, round_trip. rewrite Hv, Hisnew. simpl. rewrite Henv.
  unfold insert_user. simpl.
  rewrite (existsb_fresh n w) by done.
  simpl. split; [reflexivity|]. by split.
Qed.

(** X2. On a reachable, well-formed store, [addBasicUser] with four
    non-empty strings and a username that no record carries answers
    the persisted record, after which [getUser] on that username
    answers a record holding exactly the four values given and an
    empty list of joined events, and [hasUser] answers [true]. *)
Theorem addBasicUser_then_getUser (f l n e : string) (w : World) :
  env w = [] ->
  wf w ->
  f <> "" -> l <> "" -> n <> "" -> e <> "" ->
  find_user n (users w) = None ->
  let '(r, w') := addBasicUser (VStr f) (VStr l) (VStr n) (VStr e) w in
  (exists d, r = Fulfilled (Some d) /\ isNew d = false)
  /\ (exists d', fst (getUser n w') = Fulfilled (Some d')
                 /\ paths d' !! "firstname" = Some (VStr f)
                 /\ paths d' !! "lastname" = Some (VStr l)
                 /\ paths d' !! "username" = Some (VStr n)
                 /\ paths d' !! "email" = Some (VStr e)
                 /\ joined d' = Some [])
  /\ fst (hasUser n w') = Fulfilled true.
Proof.
  intros Henv Hwf Hf Hl Hn He Hfree.
  destruct (addBasicUser_fresh f l n e w) as (d & -> & Hid & Hold); try done.
  assert (fst (getUser n
                 (with_users (users w ++ [ {| _id := next_id w; firstname := f;
                                              lastname := l; username := n; email := e;
                                              participatingIn := Some [] |} ])
                    (record_op OpSave (with_next_id (S (next_id w)) w))))
          = Fulfilled (Some (hydrate (events w) true
                               {| _id := next_id w; firstname := f; lastname := l;
                                  username := n; email := e;
                                  participatingIn := Some [] |}))) as Hget.
  { rewrite getUser_quiet by done. simpl. by rewrite find_user_app_new. }
  split; [by exists d|]. split.
  - eexists. split; [exact Hget|]. repeat split.
  - destruct (hasUser_spec n
                (with_users (users w ++ [ {| _id := next_id w; firstname := f;
                                             lastname := l; username := n; email := e;
                                             participatingIn := Some [] |} ])
                   (record_op OpSave (with_next_id (S (next_id w)) w)))) as [b Hb].
    rewrite Hget in Hb. by destruct Hb as [-> ->].
Qed.

Lemma addBasicUser_then_getUser_witness :
  let '(r, w') := addBasicUser (VStr "Carol") (VStr "Jones") (VStr "carol")
                    (VStr "carol@example.com") sample in
  (exists d, r = Fulfilled (Some d) /\ isNew d = false)
  /\ (exists d', fst (getUser "carol" w') = Fulfilled (Some d')
                 /\ paths d' !! "firstname" = Some (VStr "Carol")
                 /\ paths d' !! "lastname" = Some (VStr "Jones")
                 /\ paths d' !! "username" = Some (VStr "carol")
                 /\ paths d' !! "email" = Some (VStr "carol@example.com")
                 /\ joined d' = Some [])
  /\ fst (hasUser "carol" w') = Fulfilled true.
Proof.
  apply (addBasicUser_then_getUser "Carol" "Jones" "carol" "carol@example.com" sample);
    try discriminate; try reflexivity.
  exact sample_wf.
Defined.

(** X3. [addUser] and [addBasicUser] run the same construction and the
    same save: on the object holding the four fields they reach the
    same state of the store and give the same answer whenever the save
    succeeds; they differ only when it fails, where [addBasicUser]
    answers [null] and [addUser] passes the rejection on. *)
Theorem addBasicUser_is_addUser_with_handler (f l n e : Value) (w : World) :
  snd (addBasicUser f l n e w) = snd (addUser (basic_object f l n e) w)
  /\ fst (addBasicUser f l n e w)
     = match fst (addUser (basic_object f l n e) w) with
       | Fulfilled r => Fulfilled r
       | Rejected _ => Fulfilled None
       end.
Proof.
  unfold addBasicUser, addUser, async, try_catch, bind, call, basic_object, User_new.
  cbv beta iota zeta.
  by destruct (save _ _) as [[d'|err] w2].
Qed.

(** ** What a failed write leaves behind *)


Lemma assign_read d field v :
  field ∈ string_paths ->
  paths (assign d field v) !! field
  = match v with
    | VStr _ | VNull => Some v
    | _ => paths d !! field
    end.
Proof.
  intros Hf. unfold assign, is_string_path. rewrite bool_decide_eq_true_2 by done.
  destruct v; simpl; by rewrite ?lookup_insert_eq.
Qed.






(** ** Operations on one user and the other users *)

(** X5. On a reachable store, deleting one user changes what [getUser]
    answers for no other username. *)
Theorem deleteUser_leaves_others (name other : string) (w : World) :
  env w = [] ->
  name <> other ->
  fst (getUser name (snd (deleteUser other w))) = fst (getUser name w).
Proof.
  intros Henv Hne.
  rewrite deleteUser_quiet by done. rewrite !getUser_quiet by done. simpl.
  by rewrite find_user_delete_other.
Qed.

Lemma deleteUser_leaves_others_witness :
  fst (getUser "bob" (snd (deleteUser "alice" sample))) = fst (getUser "bob" sample).
Proof.
  apply (deleteUser_leaves_others "bob" "alice" sample); [reflexivity | discriminate].
Defined.

Lemma unique_id u x us :
  NoDup (_id <$> us) -> u ∈ us -> x ∈ us -> _id x = _id u -> x = u.
Proof.
  induction us as [|y us IH]; simpl; intros Hnd Hu Hx Heq.
  - by apply elem_of_nil in Hu.
  - apply NoDup_cons in Hnd as [Hy Hnd].
    apply elem_of_cons in Hu as [->|Hu]; apply elem_of_cons in Hx as [->|Hx]; try done.
    + exfalso. apply Hy. rewrite <- Heq. by apply list_elem_of_fmap_2.
    + exfalso. apply Hy. rewrite Heq. by apply list_elem_of_fmap_2.
    + by apply IH.
Qed.

Lemma find_user_replace_other other u' us :
  username u' <> other ->
  (forall x, x ∈ us -> _id x = _id u' -> username x <> other) ->
  find_user other (replace_user u' us) = find_user other us.
Proof.
  intros Hnew Hold. unfold find_user, replace_user.
  induction us as [|x us IH]; simpl; [done|].
  destruct (Nat.eqb_spec (_id x) (_id u')) as [Heq|Hne].
  - destruct (String.eqb_spec (username u') other); [done|].
    destruct (String.eqb_spec (username x) other) as [Hx|Hx].
    + exfalso. by apply (Hold x); [left | |].
    + apply IH. intros y Hy. apply Hold. by right.
  - destruct (String.eqb (username x) other); [done|].
    apply IH. intros y Hy. apply Hold. by right.
Qed.

Lemma replace_user_same u us :
  NoDup (_id <$> us) -> u ∈ us -> replace_user u us = us.
Proof.
  intros Hnd Hin. unfold replace_user.
  rewrite <- (map_id us) at 2. apply map_ext_in. intros x Hx.
  destruct (Nat.eqb_spec (_id x) (_id u)) as [Heq|]; [|done].
  symmetry. apply (unique_id u x us); try done. by apply list_elem_of_In.
Qed.

Lemma replace_user_twice u1 u2 us :
  _id u1 = _id u2 -> replace_user u2 (replace_user u1 us) = replace_user u2 us.
Proof.
  intros Hid. unfold replace_user. rewrite map_map. apply map_ext. intros x.
  destruct (Nat.eqb_spec (_id x) (_id u1)) as [Heq|Hne].
  - replace (Nat.eqb (_id u1) (_id u2)) with true
      by (symmetry; apply Nat.eqb_eq; congruence).
    replace (Nat.eqb (_id x) (_id u2)) with true
      by (symmetry; apply Nat.eqb_eq; congruence).
    reflexivity.
  - reflexivity.
Qed.

(** The two ways [multiUpdateUser] can end on a reachable store: the
    collection is untouched and the answer is [null], or the record it
    found is rewritten with the validated document and returned. *)
Lemma multiUpdateUser_outcomes name updates w :
  env w = [] ->
  (env (snd (multiUpdateUser name updates w)) = []
   /\ events (snd (multiUpdateUser name updates w)) = events w)
  /\ ((fst (multiUpdateUser name updates w) = Fulfilled None
       /\ users (snd (multiUpdateUser name updates w)) = users w)
      \/ (exists u u',
            find_user name (users w) = Some u
            /\ validate (assign_all updates (hydrate (events w) false u)) = Some u'
            /\ _id u' = _id u
            /\ fst (multiUpdateUser name updates w)
               = Fulfilled (Some (saved (assign_all updates (hydrate (events w) false u))))
            /\ users (snd (multiUpdateUser name updates w)) = replace_user u' (users w))).
Proof.
  intros Henv.
  destruct (find_user name (users w)) as [u|] eqn:Hu.
  - rewrite (multiUpdateUser_found name updates u w Henv Hu). cbv zeta.
    destruct (own _ !! "save"); [by split; [|left]|].
    unfold save, round_trip.
    destruct (validate _) as [u'|] eqn:Hv; [|by split; [|left]].
    rewrite isNew_assign_all. simpl. rewrite Henv. unfold update_user. simpl.
    destruct (negb _); [by split; [|left]|].
    destruct (existsb _ (users w)); [by split; [|left]|].
    split; [done|].
    right. exists u, u'. split; [done|]. split; [done|]. split; [|by split].
    apply validate_inv in Hv as (_ & _ & _ & _ & _ & _ & _ & _ & _ & _ & ->).
    clear. induction updates as [|[field v] rest IH] using rev_ind; [done|].
    unfold assign_all in *. rewrite fold_left_app. simpl. by rewrite doc_id_assign.
  - assert (multiUpdateUser name updates w = (Fulfilled None, record_op OpFindOne w)) as ->.
    { unfold multiUpdateUser, async, try_catch, bind at 1 2.
      unfold call at 1. rewrite findOne_populate_quiet by done. rewrite Hu. simpl.
      unfold bind at 1. rewrite for_of_null. by destruct updates. }
    split; [done | by left].
Qed.

(** X6. On a reachable, well-formed store, an [updateUser] on one user
    changes what [getUser] answers for no other username, whatever the
    field and the value, as long as the update does not try to give
    that other username to the user. *)
Theorem updateUser_leaves_others (name other field : string) (v : Value) (w : World) :
  env w = [] ->
  wf w ->
  name <> other ->
  (field = "username" -> v <> VStr other) ->
  fst (getUser other (snd (updateUser name field v w))) = fst (getUser other w).
Proof.
  intros Henv Hwf Hne Hkey.
  rewrite updateUser_as_loop.
  destruct (multiUpdateUser_outcomes name [(field, v)] w Henv)
    as [[Henv' Hev] [[_ Husers]|(u & u' & Hu & Hv & Hid & _ & Husers)]];
    rewrite !getUser_quiet by done; simpl; rewrite Hev, Husers; [done|].
  pose proof (find_user_Some _ _ _ Hu) as [Hin Hname].
  rewrite find_user_replace_other; [done | |].
  - (* the username of the rewritten record *)
    apply validate_inv in Hv as (_ & _ & _ & _ & _ & Hread & _).
    change (assign_all [(field, v)] (hydrate (events w) false u))
      with (assign (hydrate (events w) false u) field v) in Hread.
    destruct (String.eqb_spec field "username") as [->|Hfield].
    + rewrite assign_read in Hread by set_solver.
      destruct v as [|s| |]; try (intros Hbad; congruence).
      * intros Hbad. apply (Hkey eq_refl). congruence.
      * change (paths (hydrate (events w) false u) !! "username")
          with (Some (VStr (username u))) in Hread. congruence.
      * change (paths (hydrate (events w) false u) !! "username")
          with (Some (VStr (username u))) in Hread. congruence.
    + destruct (assign_other (hydrate (events w) false u) "username" field v) as [Hsame _];
        [congruence|].
      rewrite Hsame in Hread.
      change (paths (hydrate (events w) false u) !! "username")
        with (Some (VStr (username u))) in Hread. congruence.
  - intros x Hx Hxid. rewrite Hid in Hxid.
    rewrite (unique_id u x (users w) (wf_ids w Hwf) Hin Hx Hxid). congruence.
Qed.

Lemma updateUser_leaves_others_witness :
  fst (getUser "bob" (snd (updateUser "alice" "username" (VStr "alicia") sample)))
  = fst (getUser "bob" sample).
Proof.
  apply (updateUser_leaves_others "alice" "bob" "username" (VStr "alicia") sample).
  - reflexivity.
  - exact sample_wf.
  - discriminate.
  - intros _. discriminate.
Defined.

(** ** Updates that fail, and updates of nothing *)

(** X7. On a reachable store, whenever [multiUpdateUser] answers
    [null] (no such user, a value the schema refuses, a username
    already taken, a property named [save]) the collection of users is
    exactly what it was: none of the assignments made in memory
    reaches the store. *)
Theorem multiUpdateUser_null_changes_nothing
    (name : string) (updates : list (string * Value)) (w : World) :
  env w = [] ->
  fst (multiUpdateUser name updates w) = Fulfilled None ->
  users (snd (multiUpdateUser name updates w)) = users w.
Proof.
  intros Henv Hnull.
  destruct (multiUpdateUser_outcomes name updates w Henv)
    as [_ [[_ Husers]|(u & u' & _ & _ & _ & Hsome & _)]]; [done|].
  rewrite Hsome in Hnull. discriminate.
Qed.

Lemma multiUpdateUser_null_changes_nothing_witness :
  users (snd (multiUpdateUser "alice" [("firstname", VStr "Alicia"); ("email", VStr "")]
                sample))
  = users sample.
Proof.
  apply (multiUpdateUser_null_changes_nothing "alice"
           [("firstname", VStr "Alicia"); ("email", VStr "")] sample); reflexivity.
Defined.

(** X8. With an empty list of updates on a reachable, well-formed
    store, [multiUpdateUser] still looks the user up and saves: for an
    existing user it answers the record as stored and the collection
    is unchanged; for a username that no record carries it answers
    [null], because calling [save] on the missing record throws. *)
Theorem multiUpdateUser_no_updates (name : string) (found : option User) (w : World) :
  env w = [] ->
  wf w ->
  find_user name (users w) = found ->
  let '(r, w') := multiUpdateUser name [] w in
  users w' = users w
  /\ match found with
     | Some u => r = Fulfilled (Some (hydrate (events w) false u))
                 /\ log w' = log w ++ [OpFindOne; OpSave]
     | None => r = Fulfilled None /\ log w' = log w ++ [OpFindOne]
     end.
Proof.
  intros Henv Hwf Hfound. destruct found as [u|].
  - pose proof (find_user_Some _ _ _ Hfound) as [Hin Hname].
    assert (valid_user u = true) as Hvalid.
    { pose proof (wf_valid w Hwf) as Hall. rewrite Forall_forall in Hall. by apply Hall. }
    rewrite (multiUpdateUser_saves name [] u u w); try done.
    + simpl. rewrite replace_user_same; [|apply Hwf | done].
      split; [done|]. split; [done | by rewrite <- app_assoc].
    + by apply validate_hydrate.
    + intros x Hx Hxn. by rewrite (unique_name u x (users w) (wf_names w Hwf) Hin Hx Hxn).
  - unfold multiUpdateUser, async, try_catch, bind at 1 2.
    unfold call at 1. rewrite findOne_populate_quiet by done. rewrite Hfound. simpl.
    done.
Qed.

Lemma multiUpdateUser_no_updates_witness :
  let '(r, w') := multiUpdateUser "nobody" [] sample in
  users w' = users sample
  /\ r = Fulfilled None /\ log w' = log sample ++ [OpFindOne].
Proof.
  apply (multiUpdateUser_no_updates "nobody" None sample);
    [reflexivity | exact sample_wf | reflexivity].
Defined.

(** ** Two updates and one *)

(** One acceptable update of an existing user, on a reachable,
    well-formed store. *)
Lemma updateUser_acceptable name u field s w :
  env w = [] ->
  wf w ->
  find_user name (users w) = Some u ->
  acceptable (field, VStr s) = true ->
  updateUser name field (VStr s) w
  = (Fulfilled (Some (saved (assign (hydrate (events w) false u) field (VStr s)))),
     with_users (replace_user (with_string u field s) (users w))
       (record_op OpSave (record_op OpFindOne w)))
  /\ username (with_string u field s) = name.
Proof.
  intros Henv Hwf Hu Hacc.
  pose proof (find_user_Some _ _ _ Hu) as [Hin Hname].
  assert (valid_user u = true) as Hvalid.
  { pose proof (wf_valid w Hwf) as Hall. rewrite Forall_forall in Hall. by apply Hall. }
  apply acceptable_inv in Hacc as (s' & [= <-] & Hs & Hpath & Hkey). simpl in Hpath, Hkey.
  assert (username (with_string u field s) = name) as Hsame.
  { simpl. apply String.eqb_neq in Hkey. by rewrite Hkey. }
  split; [|done].
  rewrite updateUser_as_loop.
  apply (multiUpdateUser_saves name [(field, VStr s)] u (with_string u field s) w);
    try done.
  - simpl. unfold assign, is_string_path. by rewrite bool_decide_eq_true_2.
  - by apply validate_assign_string; [apply validate_hydrate | |].
  - intros x Hx Hxn. rewrite Hsame, <- Hname in Hxn.
    by rewrite (unique_name u x (users w) (wf_names w Hwf) Hin Hx Hxn).
Qed.

(** X9. On a reachable, well-formed store, two successive [updateUser]
    calls that give non-empty strings to fields among [firstname],
    [lastname], [email] of an existing user leave the same collection,
    and the same record under [getUser], as one [multiUpdateUser] with
    the two updates in that order; the two calls make two lookups and
    two saves where the single call makes one of each. *)
Theorem updateUser_twice_is_multiUpdateUser
    (name field1 s1 field2 s2 : string) (u : User) (w : World) :
  env w = [] ->
  wf w ->
  find_user name (users w) = Some u ->
  forallb acceptable [(field1, VStr s1); (field2, VStr s2)] = true ->
  let w2 := snd (updateUser name field2 (VStr s2)
                   (snd (updateUser name field1 (VStr s1) w))) in
  let wm := snd (multiUpdateUser name [(field1, VStr s1); (field2, VStr s2)] w) in
  users w2 = users wm
  /\ fst (getUser name w2) = fst (getUser name wm)
  /\ log w2 = log w ++ [OpFindOne; OpSave; OpFindOne; OpSave]
  /\ log wm = log w ++ [OpFindOne; OpSave].
Proof.
  intros Henv Hwf Hu Hacc. cbv zeta.
  pose proof Hacc as Hboth.
  simpl in Hacc. apply andb_prop in Hacc as [Hacc1 Hacc2].
  apply andb_prop in Hacc2 as [Hacc2 _].
  pose proof (find_user_Some _ _ _ Hu) as [Hin Hname].
  assert (valid_user u = true) as Hvalid.
  { pose proof (wf_valid w Hwf) as Hall. rewrite Forall_forall in Hall. by apply Hall. }
  (* the first call *)
  destruct (updateUser_acceptable name u field1 s1 w Henv Hwf Hu Hacc1) as [Hfirst Hname1].
  pose proof (proj1 (proj2 (proj2 repository_keeps_wf)) name field1 (VStr s1) w Hwf) as Hwf1.
  rewrite Hfirst in Hwf1 |- *. simpl in Hwf1 |- *.
  set (u1 := with_string u field1 s1) in *.
  set (w1 := with_users (replace_user u1 (users w))
               (record_op OpSave (record_op OpFindOne w))) in *.
  assert (find_user name (users w1) = Some u1) as Hu1.
  { apply find_user_replaced; [done | by exists u |].
    intros x Hx Hxn. rewrite <- Hname in Hxn.
    by rewrite (unique_name u x (users w) (wf_names w Hwf) Hin Hx Hxn). }
  (* the second call *)
  destruct (updateUser_acceptable name u1 field2 s2 w1 Henv Hwf1 Hu1 Hacc2)
    as [Hsecond Hname2].
  rewrite Hsecond. simpl.
  rewrite replace_user_twice by done.
  (* the single call *)
  apply acceptable_inv in Hacc1 as (s1' & [= <-] & Hs1 & Hpath1 & Hkey1).
  apply acceptable_inv in Hacc2 as (s2' & [= <-] & Hs2 & Hpath2 & Hkey2).
  simpl in Hpath1, Hkey1, Hpath2, Hkey2.
  rewrite (multiUpdateUser_saves name [(field1, VStr s1); (field2, VStr s2)] u
             (with_string u1 field2 s2) w); try done.
  - simpl. split; [done|]. split.
    + rewrite !getUser_quiet by done. reflexivity.
    + by rewrite <- !app_assoc.
  - simpl. unfold assign, is_string_path. by rewrite !bool_decide_eq_true_2.
  - simpl. apply validate_assign_string; [|done|done].
    apply validate_assign_string; [by apply validate_hydrate | done | done].
  - intros x Hx Hxn. rewrite Hname2, <- Hname in Hxn.
    by rewrite (unique_name u x (users w) (wf_names w Hwf) Hin Hx Hxn).
Qed.

Lemma updateUser_twice_is_multiUpdateUser_witness :
  let w2 := snd (updateUser "alice" "email" (VStr "a@x.com")
                   (snd (updateUser "alice" "firstname" (VStr "Alicia") sample))) in
  let wm := snd (multiUpdateUser "alice"
                   [("firstname", VStr "Alicia"); ("email", VStr "a@x.com")] sample) in
  users w2 = users wm
  /\ fst (getUser "alice" w2) = fst (getUser "alice" wm)
  /\ log w2 = log sample ++ [OpFindOne; OpSave; OpFindOne; OpSave]
  /\ log wm = log sample ++ [OpFindOne; OpSave].
Proof.
  apply (updateUser_twice_is_multiUpdateUser "alice" "firstname" "Alicia" "email" "a@x.com"
           (sample_user 1 "alice") sample);
    [reflexivity | exact sample_wf | reflexivity | reflexivity].
Defined.

(** ** The lookups *)

(** X10. On a reachable store the three lookups by username agree:
    [getRawUser] and [getUserObj] find a record exactly when [getUser]
    does, leave the store in the same state, and show the same
    identifier and the same values of the schema fields; [getUserObj]
    also shows the same joined events, while [getRawUser] joins
    nothing. *)
Theorem lookups_agree (name : string) (w : World) :
  env w = [] ->
  snd (getRawUser name w) = snd (getUser name w)
  /\ snd (getUserObj name w) = snd (getUser name w)
  /\ fst (getUserObj name w) = outcome_map (fmap lean) (fst (getUser name w))
  /\ outcome_map (fmap (fun d => (doc_id d, paths d))) (fst (getRawUser name w))
     = outcome_map (fmap (fun d => (doc_id d, paths d))) (fst (getUser name w))
  /\ (forall d, fst (getRawUser name w) = Fulfilled (Some d) -> joined d = None).
Proof.
  intros Henv.
  unfold getRawUser, getUserObj, getUser, async, try_catch, bind, call,
    findOne, findOne_populate_lean, findOne_populate.
  rewrite !findOne_joined_quiet by done. rewrite round_trip_quiet by done. simpl.
  destruct (find_user name (users w)) as [u|]; simpl;
    repeat split; intros d [= <-]; reflexivity.
Qed.

Lemma lookups_agree_witness :
  snd (getRawUser "alice" attending) = snd (getUser "alice" attending)
  /\ snd (getUserObj "alice" attending) = snd (getUser "alice" attending)
  /\ fst (getUserObj "alice" attending)
     = outcome_map (fmap lean) (fst (getUser "alice" attending))
  /\ outcome_map (fmap (fun d => (doc_id d, paths d))) (fst (getRawUser "alice" attending))
     = outcome_map (fmap (fun d => (doc_id d, paths d))) (fst (getUser "alice" attending))
  /\ (forall d, fst (getRawUser "alice" attending) = Fulfilled (Some d) -> joined d = None).
Proof. apply (lookups_agree "alice" attending). reflexivity. Defined.

(** The hypothesis on the environment is needed: [getUser] joins the
    events in a second query and [getRawUser] does not, so an outage
    after the lookup makes [getUser] answer [null] where [getRawUser]
    answers the record. *)
Lemma lookups_differ_on_outage :
  let w := with_env [Quiet; Outage] attending in
  fst (getUser "alice" w) = Fulfilled None
  /\ fst (getUserObj "alice" w) = Fulfilled None
  /\ exists d, fst (getRawUser "alice" w) = Fulfilled (Some d).
Proof. repeat split. eexists. reflexivity. Qed.

(** What the chain makes of the populated record does not bear on
    the round trips. *)
Lemma findOne_joined_map {A B} name (k : list Event -> User -> A) (f : A -> B) w :
  findOne_joined name (fun evs u => f (k evs u)) w
  = (outcome_map (fmap f) (fst (findOne_joined name k w)), snd (findOne_joined name k w)).
Proof.
  unfold findOne_joined.
  destruct (round_trip _ (record_op OpFindOne w)) as [[[u|]|e] w1]; try done.
  unfold populate_query. destruct (referenced u); [done|].
  unfold round_trip. by destruct (env w1) as [|[| |other] es].
Qed.

(** The answer of [getParticipatingIn] in terms of the lookup. *)
Lemma getParticipatingIn_spec name w :
  fst (getParticipatingIn name w)
  = outcome_map (fun o => o ≫= joined) (fst (getUser name w)).
Proof.
  unfold getParticipatingIn, getUser, async, try_catch, bind, call,
    findOne_populate_select, findOne_populate.
  rewrite (findOne_joined_map name (fun evs u => hydrate evs true u)
             (select_path "participatingIn")).
  by destruct (findOne_joined name _ w) as [[[d|]|e] w1].
Qed.

Lemma populate_elem evs strip ids v :
  v ∈ populate evs strip ids ->
  exists e, e ∈ evs /\ event_id e ∈ ids /\ v = view strip e.
Proof.
  unfold populate. intros (i & Hi & Hv)%list_elem_of_omap.
  destruct (List.find _ evs) as [e|] eqn:Hfind; [|discriminate].
  injection Hv as <-. apply find_some in Hfind as [Hin Heq].
  apply Nat.eqb_eq in Heq. exists e. split; [by apply list_elem_of_In|].
  split; [by rewrite Heq | done].
Qed.

(** X11. Whenever [getParticipatingIn] answers a list, the list is the
    joined events that [getUser] shows for the same username, every
    entry stands for an event that exists in the store, and none
    carries the event's [participants]: references to events that are
    gone are dropped, not answered as holes. *)
Theorem getParticipatingIn_joined_events (name : string) (l : list EventView) (w : World) :
  fst (getParticipatingIn name w) = Fulfilled (Some l) ->
  (exists d, fst (getUser name w) = Fulfilled (Some d) /\ joined d = Some l)
  /\ (forall v, v ∈ l ->
        view_participants v = None
        /\ exists e, e ∈ events w /\ view_id v = event_id e /\ view_creator v = creator e).
Proof.
  intros Hl. rewrite getParticipatingIn_spec in Hl.
  destruct (fst (getUser name w)) as [[d|]|err] eqn:Hget; try discriminate.
  simpl in Hl. injection Hl as Hl.
  split; [by exists d|].
  (* the record that was found is a stored record joined against the events *)
  assert (exists u, d = hydrate (events w) true u) as (u & ->).
  { revert Hget.
    unfold getUser, async, try_catch, bind, call, findOne_populate.
    destruct (findOne_joined_cases name (fun evs u => hydrate evs true u) w)
      as [[e He]|[He|[u He]]];
      destruct (findOne_joined name _ w) as [[o|e'] w1]; simpl in *;
      try discriminate He; injection He as ->; simpl; try discriminate.
    intros [= <-]. by exists u. }
  simpl in Hl. destruct (participatingIn u) as [ids|]; [|discriminate].
  injection Hl as <-.
  intros v (e & He & _ & ->)%populate_elem. split; [reflexivity|]. by exists e.
Qed.

Lemma getParticipatingIn_joined_events_witness :
  (exists d, fst (getUser "alice" attending) = Fulfilled (Some d)
             /\ joined d = Some [ {| view_id := 100; view_creator := 1;
                                     view_participants := None |} ])
  /\ (forall v, v ∈ [ {| view_id := 100; view_creator := 1; view_participants := None |} ] ->
        view_participants v = None
        /\ exists e, e ∈ events attending /\ view_id v = event_id e
                     /\ view_creator v = creator e).
Proof.
  apply (getParticipatingIn_joined_events "alice"
           [ {| view_id := 100; view_creator := 1; view_participants := None |} ] attending).
  reflexivity.
Defined.

(** X12. For a username that no record carries, [getParticipatingIn]
    and [getCreatedEvents] answer the sentinel [null] and not an empty
    list, in every environment: reading a property of the missing
    record throws inside the [try]. *)
Theorem events_of_unknown_user_are_null (name : string) (w : World) :
  find_user name (users w) = None ->
  fst (getParticipatingIn name w) = Fulfilled None
  /\ fst (getCreatedEvents name w) = Fulfilled None.
Proof.
  intros Hnone.
  assert (fst (getUser name w) = Fulfilled None) as Hget.
  { unfold getUser, async, try_catch, bind, call, findOne_populate.
    destruct (findOne_joined_absent name (fun evs u => hydrate evs true u) w Hnone)
      as [[e He]|He];
      destruct (findOne_joined name _ w) as [[o|e'] w1]; simpl in *;
      try discriminate He; [reflexivity|]. by injection He as ->. }
  split.
  - rewrite getParticipatingIn_spec, Hget. reflexivity.
  - unfold getCreatedEvents, async, try_catch, bind at 1 2, call at 1.
    destruct (getUser name w) as [p w1]. simpl in Hget. subst p. reflexivity.
Qed.

Lemma events_of_unknown_user_are_null_witness :
  fst (getParticipatingIn "nobody" sample) = Fulfilled None
  /\ fst (getCreatedEvents "nobody" sample) = Fulfilled None.
Proof.
  apply (events_of_unknown_user_are_null "nobody" sample). reflexivity.
Defined.

(** ** What the repository never touches *)

Lemma spares_ret {A} (a : A) : spares_events (ret a).
Proof. by intros w. Qed.

Lemma spares_throw {A} e : spares_events (@throw A e).
Proof. by intros w. Qed.

Lemma spares_bind {A B} (m : JS A) (k : A -> JS B) :
  spares_events m -> (forall a, spares_events (k a)) -> spares_events (bind m k).
Proof.
  intros Hm Hk w. unfold bind. specialize (Hm w).
  destruct (m w) as [[a|e] w1]; simpl in *; [by rewrite Hk | done].
Qed.

Lemma spares_try_catch {A} (body : JS A) (handler : Error -> JS A) :
  spares_events body -> (forall e, spares_events (handler e)) ->
  spares_events (try_catch body handler).
Proof.
  intros Hb Hh w. unfold try_catch. specialize (Hb w).
  destruct (body w) as [[a|e] w1]; simpl in *; [done | by rewrite Hh].
Qed.

Lemma spares_call {A} (f : World -> Outcome A * World) :
  spares_events f -> spares_events (call f).
Proof. intros Hf w. unfold call. specialize (Hf w). by destruct (f w). Qed.

Lemma spares_await {A} (p : Outcome A) : spares_events (await p).
Proof. destruct p; [apply spares_ret | apply spares_throw]. Qed.

Lemma spares_async {A} (body : JS (Returned A)) :
  spares_events body -> spares_events (async body).
Proof.
  intros Hb w. unfold async. specialize (Hb w).
  by destruct (body w) as [[[a|p]|e] w1].
Qed.

Lemma spares_round_trip {A} (q : World -> Outcome A * World) :
  spares_events q -> spares_events (round_trip q).
Proof.
  intros Hq w. unfold round_trip.
  destruct (env w) as [|[| |other] es]; simpl; try done; by rewrite Hq.
Qed.

Lemma spares_recorded {A} (op : StoreOp) (q : World -> Outcome A * World) :
  spares_events q -> spares_events (fun w => round_trip q (record_op op w)).
Proof. intros Hq w. by rewrite (spares_round_trip q Hq). Qed.

Lemma spares_populate_query {A} ids (k : list Event -> A) :
  spares_events (populate_query ids k).
Proof.
  intros w. unfold populate_query. destruct ids; [done|].
  by apply (spares_round_trip (fun w => (Fulfilled (k (events w)), w))).
Qed.

Lemma spares_save d : spares_events (save d).
Proof.
  intros w. unfold save. destruct (validate d) as [u|]; [|done].
  rewrite (spares_round_trip (if isNew d then insert_user d u else update_user d u));
    [done|].
  intros w'. destruct (isNew d).
  - unfold insert_user. by destruct (existsb _ (users w')).
  - unfold update_user. destruct (negb _); [done|]. by destruct (existsb _ (users w')).
Qed.

Lemma spares_for_of updates o : spares_events (for_of updates o).
Proof.
  revert o. induction updates as [|[field v] rest IH]; intros o; simpl.
  - apply spares_ret.
  - apply spares_bind; [|done]. destruct o; [apply spares_ret | apply spares_throw].
Qed.

Lemma spares_queries :
  (forall strip name, spares_events (findOne_populate strip name))
  /\ (forall name, spares_events (findOne name))
  /\ (forall name, spares_events (findOne_populate_lean name))
  /\ (forall name, spares_events (findOne_populate_select name))
  /\ (forall name, spares_events (deleteOne name))
  /\ (forall c, spares_events (Event_find c))
  /\ (forall pattern limit, spares_events (find_regex pattern limit)).
Proof.
  assert (forall A name (k : list Event -> User -> A), spares_events (findOne_joined name k))
    as Hjoined.
  { intros A name k w. unfold findOne_joined.
    match goal with
    | |- context [round_trip ?q (record_op OpFindOne w)] =>
        pose proof (spares_round_trip q (fun _ => eq_refl) (record_op OpFindOne w)) as Hw1;
        destruct (round_trip q (record_op OpFindOne w)) as [[[u|]|e] w1]
    end; simpl in *; try done.
    by rewrite spares_populate_query. }
  repeat apply conj; intros; try apply Hjoined;
    try (apply spares_recorded; intros w'; done).
  intros w. unfold find_regex.
  match goal with
  | |- context [round_trip ?q (record_op OpFind w)] =>
      assert (spares_events q) as Hq by (intros w'; by destruct (compile_pattern w' pattern));
      pose proof (spares_round_trip q Hq (record_op OpFind w)) as Hw1;
      destruct (round_trip q (record_op OpFind w)) as [[found|e] w1]
  end; simpl in *; [|done].
  by rewrite spares_populate_query.
Qed.

Lemma spares_accessors :
  (forall o field v, spares_events (set_property o field v))
  /\ (forall o, spares_events (get_id o))
  /\ (forall o, spares_events (get_participatingIn o))
  /\ (forall o, spares_events (invoke_save o))
  /\ (forall obj, spares_events (User_new obj)).
Proof.
  repeat apply conj.
  - intros [d|] field v; [apply spares_ret | apply spares_throw].
  - intros [d|]; [apply spares_ret | apply spares_throw].
  - intros [d|]; [apply spares_ret | apply spares_throw].
  - intros [d|]; [|apply spares_throw]. unfold invoke_save.
    destruct (own d !! "save"); [apply spares_throw | apply spares_call, spares_save].
  - by intros obj w.
Qed.

Ltac spares_step :=
  lazymatch goal with
  | |- spares_events (async _) => apply spares_async
  | |- spares_events (try_catch _ _) => apply spares_try_catch; [|intros ?]
  | |- spares_events (bind _ _) => apply spares_bind; [|intros ?]
  | |- spares_events (ret _) => apply spares_ret
  | |- spares_events (await _) => apply spares_await
  | |- spares_events (for_of _ _) => apply spares_for_of
  | |- spares_events (call _) => apply spares_call
  | |- spares_events (save _) => apply spares_save
  | |- spares_events (findOne_populate _ _) => apply spares_queries
  | |- spares_events (findOne _) => apply spares_queries
  | |- spares_events (findOne_populate_lean _) => apply spares_queries
  | |- spares_events (findOne_populate_select _) => apply spares_queries
  | |- spares_events (deleteOne _) => apply spares_queries
  | |- spares_events (Event_find _) => apply spares_queries
  | |- spares_events (find_regex _ _) => apply spares_queries
  | |- spares_events (set_property _ _ _) => apply spares_accessors
  | |- spares_events (get_id _) => apply spares_accessors
  | |- spares_events (get_participatingIn _) => apply spares_accessors
  | |- spares_events (invoke_save _) => apply spares_accessors
  | |- spares_events (User_new _) => apply spares_accessors
  end.

(** X13. No function of the repository ever writes to the [events]
    collection, whatever its arguments and whatever the environment
    does: in particular deleting a user deletes none of the events
    the user created or takes part in. *)
Theorem repository_spares_events :
  (forall obj, spares_events (addUser obj))
  /\ (forall f l n e, spares_events (addBasicUser f l n e))
  /\ (forall name field v, spares_events (updateUser name field v))
  /\ (forall name updates, spares_events (multiUpdateUser name updates))
  /\ (forall name, spares_events (deleteUser name))
  /\ (forall name, spares_events (getUser name))
  /\ (forall name, spares_events (getRawUser name))
  /\ (forall name, spares_events (getUserObj name))
  /\ (forall name, spares_events (hasUser name))
  /\ (forall name, spares_events (getParticipatingIn name))
  /\ (forall name, spares_events (getCreatedEvents name))
  /\ (forall s, spares_events (findMatchingUsers s)).
Proof.
  assert (forall name, spares_events (getUser name)) as Hget.
  { intros name. unfold getUser. repeat spares_step. }
  repeat apply conj.
  - intros obj. unfold addUser. repeat spares_step.
  - intros f l n e. unfold addBasicUser. repeat spares_step.
  - intros name field v. unfold updateUser. repeat spares_step.
  - intros name updates. unfold multiUpdateUser. repeat spares_step.
  - intros name. unfold deleteUser. repeat spares_step.
  - exact Hget.
  - intros name. unfold getRawUser. repeat spares_step.
  - intros name. unfold getUserObj. repeat spares_step.
  - intros name. unfold hasUser. apply spares_async.
    apply spares_bind; [apply spares_call, Hget | intros p]. repeat spares_step.
  - intros name. unfold getParticipatingIn. repeat spares_step.
  - intros name. unfold getCreatedEvents. apply spares_async, spares_try_catch;
      [|intros; apply spares_ret].
    apply spares_bind; [apply spares_call, Hget | intros p]. repeat spares_step.
  - intros s. unfold findMatchingUsers. repeat spares_step.
Qed.

(** ** The invariant of the store *)

Lemma keeps_lookup {A} (q : World -> Outcome A * World) :
  (forall w, snd (q w) = w) ->
  keeps (fun w => round_trip q (record_op OpFindOne w)).
Proof.
  intros Hq w Hwf.
  apply keeps_round_trip; [|by apply wf_record_op].
  intros w' Hw'. by rewrite Hq.
Qed.

(** X14. Every function of the repository takes a well-formed store
    (usernames unique, identifiers unique and below the next one to be
    allocated, every record valid for the schema) to a well-formed
    store, whatever its arguments and whatever the environment does
    around its round trips. *)
Theorem repository_preserves_store_invariant :
  (forall obj, keeps (addUser obj))
  /\ (forall f l n e, keeps (addBasicUser f l n e))
  /\ (forall name field v, keeps (updateUser name field v))
  /\ (forall name updates, keeps (multiUpdateUser name updates))
  /\ (forall name, keeps (deleteUser name))
  /\ (forall name, keeps (getUser name))
  /\ (forall name, keeps (getRawUser name))
  /\ (forall name, keeps (getUserObj name))
  /\ (forall name, keeps (hasUser name))
  /\ (forall name, keeps (getParticipatingIn name))
  /\ (forall name, keeps (getCreatedEvents name))
  /\ (forall s, keeps (findMatchingUsers s)).
Proof.
  destruct repository_keeps_wf
    as (Hadd & Hbasic & Hupd & Hmulti & Hdel & Hget & Hhas & Hcreated & Hfind).
  repeat apply conj; try done.
  - intros name. apply keeps_async, keeps_try_catch; [|intros; apply keeps_ret].
    apply keeps_bind; [apply keeps_call; by apply keeps_lookup|]. intros p.
    apply keeps_bind; [apply keeps_await | intros; apply keeps_ret].
  - intros name. apply keeps_async, keeps_try_catch; [|intros; apply keeps_ret].
    apply keeps_bind; [apply keeps_call, keeps_findOne_joined|]. intros p.
    apply keeps_bind; [apply keeps_await | intros; apply keeps_ret].
  - intros name. apply keeps_async, keeps_try_catch; [|intros; apply keeps_ret].
    apply keeps_bind; [apply keeps_call, keeps_findOne_joined|]. intros p.
    apply keeps_bind; [apply keeps_await|]. intros o.
    apply keeps_bind; [destruct o; [apply keeps_ret | apply keeps_throw]|].
    intros; apply keeps_ret.
Qed.

Lemma repository_preserves_store_invariant_witness :
  wf (snd (addUser alice_again sample))
  /\ wf (snd (deleteUser "alice" (with_env [RemoteDelete "bob"; Outage] sample)))
  /\ wf (snd (updateUser "alice" "username" (VStr "bob") sample))
  /\ wf (snd (getParticipatingIn "alice" attending)).
Proof.
  pose proof repository_preserves_store_invariant
    as (Hadd & _ & Hupd & _ & Hdel & _ & _ & _ & _ & Hpart & _).
  repeat apply conj.
  - apply Hadd, sample_wf.
  - apply Hdel. apply wf_with_env, sample_wf.
  - apply Hupd, sample_wf.
  - apply Hpart. split; apply (bool_decide_unpack _); vm_compute; exact I.
Defined.

(** ** The empty search string *)

Lemma search_empty_pattern (name : string) : Regex.search Regex.Eps name = true.
Proof.
  unfold Regex.search. by destruct (Regex.chars (list_ascii_of_string name)).
Qed.

Lemma filter_all {A} (f : A -> bool) (l : list A) :
  (forall x, f x = true) -> List.filter f l = l.
Proof.
  intros Hall. induction l as [|x l IH]; simpl; [done|]. by rewrite Hall, IH.
Qed.

(** X15. On a reachable store, [findMatchingUsers] with the empty
    string matches every username: it answers ten users of the
    collection, or all of them when the collection holds at most ten,
    whatever the order in which the store scans the collection. *)
Theorem findMatchingUsers_empty_string (w : World) :
  env w = [] ->
  fair_scan w ->
  exists l,
    fst (findMatchingUsers "" w) = Fulfilled (Some l)
    /\ length l = min 10 (length (users w))
    /\ (forall d, d ∈ l -> exists u, u ∈ users w /\ d = hydrate (events w) true u)
    /\ (length (users w) <= 10 ->
        forall u, u ∈ users w -> hydrate (events w) true u ∈ l).
Proof.
  intros Henv Hscan.
  rewrite (findMatchingUsers_accepted "" (Regex.search Regex.Eps) w Henv eq_refl).
  rewrite filter_all by (intros u; apply search_empty_pattern).
  assert (length (scan w (users w)) = length (users w)) as Hlen
    by apply Permutation_length, Hscan.
  eexists. split; [reflexivity|].
  split; [rewrite length_fmap, length_take, Hlen; lia|]. split.
  - intros d (u & -> & Hu)%list_elem_of_fmap.
    apply elem_of_take in Hu as (i & Hi & _). exists u. split; [|done].
    rewrite <- (Hscan (users w)). by apply list_elem_of_lookup_2 in Hi.
  - intros Hfew u Hu. apply list_elem_of_fmap_2.
    rewrite take_ge by lia. by rewrite (Hscan (users w)).
Qed.

Lemma findMatchingUsers_empty_string_witness :
  exists l,
    fst (findMatchingUsers "" sample) = Fulfilled (Some l)
    /\ length l = min 10 (length (users sample))
    /\ (forall d, d ∈ l -> exists u, u ∈ users sample /\ d = hydrate (events sample) true u)
    /\ (length (users sample) <= 10 ->
        forall u, u ∈ users sample -> hydrate (events sample) true u ∈ l).
Proof.
  apply (findMatchingUsers_empty_string sample); [reflexivity | exact sample_fair_scan].
Defined.

(** ** Calls made on the mapper *)

Lemma for_of_world updates o w : snd (for_of updates o w) = w.
Proof.
  revert o. induction updates as [|[field v] rest IH]; intros o; simpl; [done|].
  unfold bind. destruct o as [d|]; simpl; [apply IH | done].
Qed.

Lemma save_log d w : log (snd (save d w)) = log w ++ [OpSave].
Proof.
  unfold save. destruct (validate d) as [u|]; [|done].
  unfold round_trip. simpl.
  destruct (env w) as [|[| |other] es]; simpl; try done;
    destruct (isNew d); unfold insert_user, update_user; simpl;
    repeat match goal with
           | |- context [if ?b then _ else _] => destruct b
           end; done.
Qed.

Lemma round_trip_log {A} (q : World -> Outcome A * World) w :
  (forall w', log (snd (q w')) = log w') -> log (snd (round_trip q w)) = log w.
Proof.
  intros Hq. unfold round_trip.
  destruct (env w) as [|[| |other] es]; simpl; try done; by rewrite Hq.
Qed.

(** The lookup with its join is one call on the mapper. *)
Lemma findOne_joined_log {A} name (k : list Event -> User -> A) w :
  log (snd (findOne_joined name k w)) = log w ++ [OpFindOne].
Proof.
  unfold findOne_joined.
  match goal with
  | |- context [round_trip ?q (record_op OpFindOne w)] =>
      pose proof (round_trip_log q (record_op OpFindOne w) (fun _ => eq_refl)) as Hw1;
      destruct (round_trip q (record_op OpFindOne w)) as [[[u|]|e] w1]
  end; simpl in *; try done.
  unfold populate_query. destruct (referenced u); [done|].
  by rewrite round_trip_log.
Qed.

(** X16. [multiUpdateUser] calls the mapper at most twice, whatever
    the updates and whatever the environment does: one lookup, then at
    most one [save], and a [save] only once the lookup has answered a
    record. *)
Theorem multiUpdateUser_calls (name : string) (updates : list (string * Value)) (w : World) :
  log (snd (multiUpdateUser name updates w)) = log w ++ [OpFindOne]
  \/ (log (snd (multiUpdateUser name updates w)) = log w ++ [OpFindOne; OpSave]
      /\ exists d, fst (findOne_populate false name w) = Fulfilled (Some d)).
Proof.
  pose proof (findOne_joined_log name (fun evs u => hydrate evs false u) w) as Hlog.
  fold (findOne_populate false name) in Hlog.
  remember (multiUpdateUser name updates w) as r eqn:Hr.
  unfold multiUpdateUser, async, try_catch, bind at 1 2, call at 1 in Hr.
  destruct (findOne_populate false name w) as [[o|err] w1]; simpl in *;
    [|subst r; by left].
  unfold bind at 1 in Hr.
  pose proof (for_of_world updates o w1) as Hsame.
  destruct (for_of updates o w1) as [[o'|err] w2] eqn:Hfor; simpl in *; subst w2;
    [|subst r; by left].
  unfold bind at 1 in Hr.
  destruct o as [d|].
  - rewrite for_of_found in Hfor. injection Hfor as <-.
    unfold invoke_save in Hr. destruct (own _ !! "save"); simpl in Hr; [subst r; by left|].
    unfold call, bind in Hr.
    pose proof (save_log (assign_all updates d) w1) as Hsave.
    right. split; [|by exists d].
    destruct (save _ w1) as [[d'|err] w3]; simpl in *; subst r; simpl;
      by rewrite Hsave, Hlog, <- app_assoc.
  - rewrite for_of_null in Hfor.
    destruct updates; [injection Hfor as Ho; subst o' | discriminate Hfor].
    simpl in Hr. subst r. by left.
Qed.

(** X17. A field called [save] can never be updated: the assignment
    hides the method that [updateUser] calls next, so the answer is
    [null] for every username, every value and every environment, and
    no [save] reaches the mapper. *)
Theorem updateUser_save_field (name : string) (v : Value) (w : World) :
  fst (updateUser name "save" v w) = Fulfilled None
  /\ log (snd (updateUser name "save" v w)) = log w ++ [OpFindOne].
Proof.
  pose proof (findOne_joined_log name (fun evs u => hydrate evs false u) w) as Hlog.
  unfold updateUser, async, try_catch, bind, call, findOne_populate.
  destruct (findOne_joined name _ w) as [[[d|]|e] w1]; simpl in *; [|done|done].
  by rewrite lookup_insert_eq.
Qed.

(** ** Reads *)

(** X18. On a reachable store the seven reading functions change
    neither the users nor the events and allocate no identifier: all
    they leave behind is the record of their own calls. *)
Theorem lookups_read_only :
  (forall name, reads_only (getUser name))
  /\ (forall name, reads_only (getRawUser name))
  /\ (forall name, reads_only (getUserObj name))
  /\ (forall name, reads_only (hasUser name))
  /\ (forall name, reads_only (getParticipatingIn name))
  /\ (forall name, reads_only (getCreatedEvents name))
  /\ (forall s, reads_only (findMatchingUsers s)).
Proof.
  repeat apply conj; intros x w Henv.
  - by rewrite getUser_quiet.
  - unfold getRawUser, async, try_catch, bind, call, findOne, round_trip.
    simpl. by rewrite Henv.
  - unfold getUserObj, async, try_catch, bind, call, findOne_populate_lean.
    by rewrite findOne_joined_quiet.
  - unfold hasUser, async, bind, call. rewrite getUser_quiet by done. simpl.
    by destruct (find_user x (users w)).
  - unfold getParticipatingIn, async, try_catch, bind, call, findOne_populate_select.
    rewrite findOne_joined_quiet by done. simpl. by destruct (find_user x (users w)).
  - unfold getCreatedEvents, async, try_catch, bind, call. rewrite getUser_quiet by done.
    simpl. destruct (find_user x (users w)); simpl; [|done].
    unfold Event_find, round_trip. simpl. by rewrite Henv.
  - unfold findMatchingUsers, async, try_catch, bind, call, find_regex.
    rewrite round_trip_quiet by done.
    destruct (compile_pattern _ x); [|done].
    by rewrite populate_query_quiet.
Qed.

Lemma lookups_read_only_witness :
  users (snd (getCreatedEvents "alice" sample)) = users sample
  /\ events (snd (getCreatedEvents "alice" sample)) = events sample
  /\ next_id (snd (getCreatedEvents "alice" sample)) = next_id sample.
Proof.
  pose proof lookups_read_only as (_ & _ & _ & _ & _ & Hcreated & _).
  apply (Hcreated "alice" sample). reflexivity.
Defined.
